(** * The recency-ordered ledger of project.py

    A shallow embedding of the CSV ledger kept by [project.py]: the
    [OrderedDict] that maps [(filename, name)] to a list of interests, the
    loader and writer of its CSV form, and the upsert loop of [main]; and of
    the pure parts of the text extraction and of the reading of the answer of
    the analysis.

    Strings are Python [str] values held as their UTF-8 bytes. The libraries
    the script calls are kept at their interface: [csv] is taken at the row
    dictionaries [DictReader] yields and [DictWriter] receives, [json] and the
    iteration order of [set] are operations with stated laws. *)

From Stdlib Require Import Ascii String.
From stdpp Require Import base option list strings gmap.

Open Scope string_scope.
Open Scope list_scope.
Open Scope nat_scope.

(** ** Strings *)

Definition chars (s : string) : list ascii := list_ascii_of_string s.
Definition text (l : list ascii) : string := string_of_list_ascii l.

(** UTF-8 encodings of the code points [str.isspace] accepts: U+0009-000D,
    U+001C-001F, U+0020, U+0085, U+00A0, U+1680, U+2000-200A, U+2028, U+2029,
    U+202F, U+205F and U+3000. *)
Definition space_codes : list (list nat) :=
  [ [9]; [10]; [11]; [12]; [13]; [28]; [29]; [30]; [31]; [32];
    [194; 133]; [194; 160]; [225; 154; 128];
    [226; 128; 128]; [226; 128; 129]; [226; 128; 130]; [226; 128; 131];
    [226; 128; 132]; [226; 128; 133]; [226; 128; 134]; [226; 128; 135];
    [226; 128; 136]; [226; 128; 137]; [226; 128; 138];
    [226; 128; 168]; [226; 128; 169]; [226; 128; 175]; [226; 129; 159];
    [227; 128; 128] ].

Definition spaces : list (list ascii) := map (map ascii_of_nat) space_codes.

(** [s] without the leading word [w], when it starts with it. *)
Fixpoint drop_word (w s : list ascii) : option (list ascii) :=
  match w, s with
  | [], _ => Some s
  | _ :: _, [] => None
  | c :: w', d :: s' => if decide (c = d) then drop_word w' s' else None
  end.

(** [s] without one leading character out of [ws]. *)
Definition drop_one (ws : list (list ascii)) (s : list ascii)
  : option (list ascii) :=
  head (omap (λ w, drop_word w s) ws).

Fixpoint lstrip_loop (ws : list (list ascii)) (n : nat) (s : list ascii)
  : list ascii :=
  match n with
  | 0 => s
  | S n' =>
      match drop_one ws s with
      | Some s' => lstrip_loop ws n' s'
      | None => s
      end
  end.

Definition lstrip (s : list ascii) : list ascii :=
  lstrip_loop spaces (length s) s.

Definition rstrip (s : list ascii) : list ascii :=
  reverse (lstrip_loop (map reverse spaces) (length s) (reverse s)).

(** [str.strip()] *)
Definition strip (s : string) : string := text (rstrip (lstrip (chars s))).

(** The part of [s] after the last [sep], all of [s] when it has none. *)
Fixpoint after_last (sep : ascii) (acc : list ascii) (s : list ascii)
  : list ascii :=
  match s with
  | [] => reverse acc
  | c :: s' =>
      if decide (c = sep) then after_last sep [] s'
      else after_last sep (c :: acc) s'
  end.

(** [os.path.basename] on a POSIX path. *)
Definition basename (path : string) : string :=
  text (after_last "/"%char [] (chars path)).

(** [str.lower()] on one character. Only the test [ext not in EXTS] reads the
    lowered path, and [str.lower()] takes no character outside ASCII to a
    letter of those words, so lowering the ASCII letters decides it alike. *)
Definition lower_char (c : ascii) : ascii :=
  let n := nat_of_ascii c in
  if bool_decide (65 ≤ n ≤ 90)%nat then ascii_of_nat (n + 32) else c.

(** [path.lower().rsplit(".", 1)[-1]] *)
Definition extension (path : string) : string :=
  text (after_last "."%char [] (map lower_char (chars path))).

Definition EXTS : list string := ["docx"; "pdf"; "pages"; "txt"].
Definition CSV_FIELDS : list string := ["filename"; "name"; "interests"].

(** ** Exceptions *)

Inductive exn : Type :=
| KeyError (k : string).

Inductive result (A : Type) : Type :=
| Ok (a : A)
| Raise (e : exn).

Arguments Ok {A} a.
Arguments Raise {A} e.

#[global] Instance result_ret : MRet result := @Ok.
#[global] Instance result_bind : MBind result := λ A B f m,
  match m with
  | Ok a => f a
  | Raise e => Raise e
  end.

(** ** The ordered dictionary *)

(** A ledger key is the tuple [(os.path.basename(path), name)]. *)
Definition Key : Type := string * string.

(** [collections.OrderedDict]: the entries in insertion order. A Python
    dictionary holds a key once; on this representation that is [U1]. *)
Abbreviation OrderedDict := (list (Key * list string)).

Definition U1 (od : OrderedDict) : Prop := NoDup od.*1.

(** [od[key]], [None] where Python raises [KeyError]; [key in od] is
    [is_Some (od_get key od)]. *)
Fixpoint od_get (key : Key) (od : OrderedDict) : option (list string) :=
  match od with
  | [] => None
  | (k, v) :: od' => if decide (k = key) then Some v else od_get key od'
  end.

(** [od[key] = v]: a key that is present keeps its position and takes the
    new value, a new key goes to the end. *)
Fixpoint od_set (key : Key) (v : list string) (od : OrderedDict) : OrderedDict :=
  match od with
  | [] => [(key, v)]
  | (k, w) :: od' =>
      if decide (k = key) then (key, v) :: od' else (k, w) :: od_set key v od'
  end.

(** [del od[key]], which the script runs only under [key in od]. *)
Definition od_del (key : Key) (od : OrderedDict) : OrderedDict :=
  filter (λ e, e.1 ≠ key) od.

(** Position of a key in the ledger. *)
Fixpoint od_index (key : Key) (od : OrderedDict) : option nat :=
  match od with
  | [] => None
  | (k, _) :: od' => if decide (k = key) then Some 0 else S <$> od_index key od'
  end.

(** [J] stands somewhere before [K] in a list of keys. *)
Definition precedes (J K : Key) (keys : list Key) : Prop :=
  ∃ l1 l2 l3, keys = l1 ++ J :: l2 ++ K :: l3.

(** The set of strings a list of interests stands for. *)
Definition as_set (l : list string) : gset string := list_to_set l.

(** ** Library interfaces *)

(** [list(set(a).union(b))]. The order in which Python iterates over a set of
    strings depends on the hash seed of the process; it is left open here and
    the laws are stated where the theorems need them. *)
Class SetOrder : Type :=
  set_union_list : list string → list string → list string.

(** [json.dumps(v, ensure_ascii=False)] and [json.loads(s)] on the values the
    ledger holds, lists of strings; [json_loads s = None] where [json.loads]
    raises. A field that decodes to another kind of JSON value is outside the
    model. *)
Class Json : Type := {
  json_dumps : list string → string;
  json_loads : string → option (list string)
}.

(** A row as [csv.DictReader] yields it and [csv.DictWriter] takes it: column
    name to field, for a record with one field for each column of the header. *)
Abbreviation csv_row := (gmap string string).

(** [row[k]] *)
Definition getitem (row : csv_row) (k : string) : result string :=
  match row !! k with
  | Some v => Ok v
  | None => Raise (KeyError k)
  end.

(** ** Loading and writing the CSV *)

(** The [try: interests = json.loads(row["interests"])] with its bare
    [except: interests = []]: the lookup is inside the [try] as well. *)
Definition row_interests `{Json} (row : csv_row) : list string :=
  match row !! "interests" with
  | Some s => default [] (json_loads s)
  | None => []
  end.

(** The loop [for row in reader] over the ledger [od] built so far. *)
Fixpoint load_rows `{Json} (rows : list csv_row) (od : OrderedDict)
  : result OrderedDict :=
  match rows with
  | [] => Ok od
  | row :: rows' =>
      fn ← getitem row "filename";
      name ← getitem row "name";
      load_rows rows' (od_set (fn, name) (row_interests row) od)
  end.

(** [file] is [None] when [os.path.isfile(path)] is false. *)
Definition load_csv_into_ordereddict `{Json} (file : option (list csv_row))
  : result OrderedDict :=
  match file with
  | None => Ok []
  | Some rows => load_rows rows []
  end.

(** The dictionary handed to [w.writerow] for one entry. *)
Definition written_row `{Json} (fn name : string) (interests : list string)
  : csv_row :=
  {[ "filename" := fn; "name" := name;
     "interests" := json_dumps interests ]}.

(** The rows written after the header [CSV_FIELDS], in the order of [od]. *)
Definition write_ordereddict_to_csv `{Json} (od : OrderedDict)
  : list csv_row :=
  map (λ e, let '((fn, name), interests) := e in written_row fn name interests)
      od.

(** The key [(row["filename"], row["name"])] of a row that has both columns,
    and the entry the row stands for. *)
Definition row_key (row : csv_row) : option Key :=
  fn ← row !! "filename"; name ← row !! "name"; Some (fn, name).

Definition row_entry `{Json} (row : csv_row) : option (Key * list string) :=
  key ← row_key row; Some (key, row_interests row).

Definition entries `{Json} (rows : list csv_row) : list (Key * list string) :=
  omap row_entry rows.

(** The assignments [od[key] = v] for a list of entries, in order. *)
Definition od_set_all (od : OrderedDict) (es : list (Key * list string))
  : OrderedDict :=
  foldl (λ acc e, od_set e.1 e.2 acc) od es.

(** ** The upsert loop of main *)

(** The body of [for person in people], from the test [key in od] on. *)
Definition upsert `{SetOrder} (key : Key) (interests : list string)
    (od : OrderedDict) : OrderedDict :=
  match od_get key od with
  | Some old =>
      let merged := set_union_list old interests in
      od_set key merged (od_del key od)
  | None => od_set key interests od
  end.

(** What [upsert] stores under [key]. *)
Definition stored `{SetOrder} (key : Key) (interests : list string)
    (od : OrderedDict) : list string :=
  match od_get key od with
  | Some old => set_union_list old interests
  | None => interests
  end.

(** A run of upserts, in order. *)
Definition upserts `{SetOrder} (ops : list (Key * list string))
    (od : OrderedDict) : OrderedDict :=
  foldl (λ acc op, upsert op.1 op.2 acc) od ops.

(** One object of the array the analysis returns; a field is [None] when the
    object lacks it. *)
Record person : Type := Person {
  person_name : option string;
  person_interests : option (list string)
}.

(** [person.get("name", "").strip()] and [person.get("interests", [])] *)
Definition fact_of (path : string) (p : person) : Key * list string :=
  ((basename path, strip (default "" (person_name p))),
   default [] (person_interests p)).

(** One input of [main]: its path, whether it is a file, and what extraction
    and analysis gave, [None] when either raised. *)
Record input : Type := Input {
  input_path : string;
  input_is_file : bool;
  input_people : option (list person)
}.

(** One round of [for path in args.files]; each [continue] leaves [od]. *)
Definition process_file `{SetOrder} (od : OrderedDict) (f : input)
  : OrderedDict :=
  if negb (input_is_file f) then od
  else if negb (bool_decide (extension (input_path f) ∈ EXTS)) then od
  else match input_people f with
       | None => od
       | Some people =>
           foldl (λ acc p, let '(key, interests) := fact_of (input_path f) p in
                           upsert key interests acc) od people
       end.

Definition main `{SetOrder} `{Json} (file : option (list csv_row))
    (files : list input) : result (list csv_row) :=
  od ← load_csv_into_ordereddict file;
  mret (write_ordereddict_to_csv (foldl process_file od files)).

(** ** The facts of a run *)

(** The upserts one input file leads to, in the order of the analysis. *)
Definition facts_of_file (f : input) : list (Key * list string) :=
  if input_is_file f && bool_decide (extension (input_path f) ∈ EXTS) then
    match input_people f with
    | Some people => fact_of (input_path f) <$> people
    | None => []
    end
  else [].

(** Every interest a run of upserts supplies for the key [K]. *)
Definition supplied (K : Key) (ops : list (Key * list string)) : gset string :=
  ⋃ (as_set <$> (filter (λ op, op.1 = K) ops).*2).

(** The reading of a file by the words of the specification, which resolves
    duplicate keys "by keeping the last occurrence": the entries of the rows
    without those whose key occurs again in a later row. *)
Fixpoint spec_keep_last_occurrence (es : list (Key * list string))
  : list (Key * list string) :=
  match es with
  | [] => []
  | e :: es' =>
      if decide (e.1 ∈ es'.*1) then spec_keep_last_occurrence es'
      else e :: spec_keep_last_occurrence es'
  end.

(** The keys of a list without their later repetitions. *)
Definition first_occurrences (keys : list Key) : list Key :=
  reverse (remove_dups (reverse keys)).

(** ** Text extraction *)

(** Exceptions of the extraction and analysis functions. *)
Inductive py_error : Type :=
| FileNotFoundError (msg : string)
| NoSuchMember (name : string)
| JSONDecodeError
| ValueError (msg : string).

Inductive attempt (A : Type) : Type :=
| Returned (a : A)
| Raised (e : py_error).

Arguments Returned {A} a.
Arguments Raised {A} e.

Definition line_feed : string := text ["010"%char].

(** The separator of the paragraphs and pages: two line feeds. *)
Definition blank_line : string := line_feed +:+ line_feed.

(** [sep.join(l)] *)
Fixpoint str_join (sep : string) (l : list string) : string :=
  match l with
  | [] => ""
  | x :: l' =>
      match l' with
      | [] => x
      | _ :: _ => x +:+ sep +:+ str_join sep l'
      end
  end.

(** [extract_text_from_docx], on the texts of [doc.paragraphs]. *)
Definition extract_text_from_docx (paragraphs : list string) : string :=
  str_join blank_line (filter (λ p, p ≠ "") paragraphs).

(** [extract_text_from_pdf], on what [page.extract_text()] gives for each
    page of [reader.pages]; [None] is Python's [None]. *)
Definition extract_text_from_pdf (pages : list (option string)) : string :=
  str_join blank_line (default "" <$> pages).

(** [s.startswith(w)] and [s.endswith(w)] *)
Definition startswith (w s : string) : bool :=
  bool_decide (is_Some (drop_word (chars w) (chars s))).

Definition endswith (w s : string) : bool :=
  bool_decide (is_Some (drop_word (reverse (chars w)) (reverse (chars s)))).

(** [z.open(name)] on a zip archive, given as its members in the order of
    the central directory, each with its name and content: a name that
    occurs twice opens its last member; [None] is the [KeyError] of a name
    that is no member. *)
Definition zip_open {A : Type} (name : string) (z : list (string * A))
  : option A :=
  snd <$> last (filter (λ m, m.1 = name) z).

(** [extract_text_from_pages] up to the member it opens. The copy of that
    member to a temporary file and the reading of the copy are not modelled:
    what the reader finds there depends on the buffering of the file. *)
Definition open_preview {A : Type} (z : list (string * A)) : attempt A :=
  let cands :=
    filter (λ f, startswith "QuickLook/" f && endswith ".pdf" f) z.*1 in
  match cands with
  | [] => Raised (FileNotFoundError "No QuickLook/Preview.pdf in .pages")
  | name :: _ =>
      match zip_open name z with
      | Some member => Returned member
      | None => Raised (NoSuchMember name)
      end
  end.

(** ** Reading the answer of the analysis *)

(** [json.loads] on the answer, an array of objects with a name and
    interests; [None] where it raises [JSONDecodeError]. *)
Class JsonPeople : Type :=
  json_loads_people : string → option (list person).

(** What is left of [s] behind its first [c]. *)
Fixpoint after_first (c : ascii) (s : list ascii) : option (list ascii) :=
  match s with
  | [] => None
  | d :: s' => if decide (d = c) then Some s' else after_first c s'
  end.

(** What stands in [s] before its last [c]. *)
Definition before_last (c : ascii) (s : list ascii) : option (list ascii) :=
  reverse <$> after_first c (reverse s).

(** [re.search(r"(\[.*\])", raw, re.DOTALL)]: the leftmost match starts at
    the first opening bracket, and the greedy [.*], which crosses line ends,
    takes it to the last closing bracket behind it. *)
Definition bracket_span (raw : list ascii) : option (list ascii) :=
  rest ← after_first "["%char raw;
  body ← before_last "]"%char rest;
  Some ("["%char :: body ++ ["]"%char]).

(** [analyze_text_with_deepseek] from the answer's [content] on. *)
Definition read_answer `{JsonPeople} (content : string)
  : attempt (list person) :=
  let raw := strip content in
  match json_loads_people raw with
  | Some people => Returned people
  | None =>
      match bracket_span (chars raw) with
      | Some m =>
          match json_loads_people (text m) with
          | Some people => Returned people
          | None => Raised JSONDecodeError
          end
      | None => Raised (ValueError ("Could not parse JSON:" +:+ line_feed +:+ raw))
      end
  end.

(** ** Instances of the library interfaces *)

(** A set order: both lists in a row, each string kept where it occurs last. *)
Definition concat_order : SetOrder := λ a b, remove_dups (a ++ b).

(** A codec for arrays of strings in the format [json.dumps] writes with
    [ensure_ascii=False]: items in double quotes, separated by a comma and a
    space, with the quote, the backslash and the characters below U+0020
    escaped. *)
Definition dquote : ascii := "034"%char.
Definition bslash : ascii := "092"%char.

Definition hex_digits : list ascii := chars "0123456789abcdef".

Definition hex_digit (n : nat) : ascii := nth n hex_digits "0"%char.

Fixpoint hex_find (c : ascii) (ds : list ascii) (i : nat) : option nat :=
  match ds with
  | [] => None
  | d :: ds' => if decide (c = d) then Some i else hex_find c ds' (S i)
  end.

Definition hex_value (c : ascii) : option nat :=
  hex_find (lower_char c) hex_digits 0.

Definition escape_char (c : ascii) : list ascii :=
  let n := nat_of_ascii c in
  if decide (c = dquote) then [bslash; dquote]
  else if decide (c = bslash) then [bslash; bslash]
  else if decide (n = 8) then [bslash; "b"%char]
  else if decide (n = 9) then [bslash; "t"%char]
  else if decide (n = 10) then [bslash; "n"%char]
  else if decide (n = 12) then [bslash; "f"%char]
  else if decide (n = 13) then [bslash; "r"%char]
  else if decide (n < 32)%nat then
    [bslash; "u"%char; "0"%char; "0"%char;
     hex_digit (n / 16); hex_digit (n mod 16)]
  else [c].

Definition escapes : list (ascii * ascii) :=
  [ (dquote, dquote); (bslash, bslash); ("/"%char, "/"%char);
    ("b"%char, "008"%char); ("t"%char, "009"%char); ("n"%char, "010"%char);
    ("f"%char, "012"%char); ("r"%char, "013"%char) ].

Fixpoint unescape (e : ascii) (tbl : list (ascii * ascii)) : option ascii :=
  match tbl with
  | [] => None
  | (k, c) :: tbl' => if decide (e = k) then Some c else unescape e tbl'
  end.

Definition hex4 (h1 h2 h3 h4 : ascii) : option nat :=
  a ← hex_value h1; b ← hex_value h2; c ← hex_value h3; d ← hex_value h4;
  Some (((a * 16 + b) * 16 + c) * 16 + d)%nat.

(** Reads a string from behind its opening quote; gives it and what follows
    the closing quote. *)
Fixpoint read_string (s acc : list ascii) : option (list ascii * list ascii) :=
  match s with
  | [] => None
  | c :: s1 =>
      if decide (c = dquote) then Some (reverse acc, s1)
      else if decide (c = bslash) then
        match s1 with
        | [] => None
        | e :: s2 =>
            if decide (e = "u"%char) then
              match s2 with
              | h1 :: h2 :: h3 :: h4 :: s3 =>
                  match hex4 h1 h2 h3 h4 with
                  | Some n =>
                      if decide (n < 128)%nat
                      then read_string s3 (ascii_of_nat n :: acc) else None
                  | None => None
                  end
              | _ => None
              end
            else
              match unescape e escapes with
              | Some d => read_string s2 (d :: acc)
              | None => None
              end
        end
      else if decide (nat_of_ascii c < 32)%nat then None
      else read_string s1 (c :: acc)
  end.

Fixpoint write_items (l : list string) : list ascii :=
  match l with
  | [] => ["]"%char]
  | x :: l' =>
      dquote :: flat_map escape_char (chars x) ++ dquote ::
        match l' with
        | [] => ["]"%char]
        | _ :: _ => ","%char :: " "%char :: write_items l'
        end
  end.

Fixpoint read_items (n : nat) (s : list ascii) (acc : list string)
  : option (list string) :=
  match n, s with
  | S n', q :: s1 =>
      if decide (q = dquote) then
        match read_string s1 [] with
        | Some (x, [c]) =>
            if decide (c = "]"%char) then Some (reverse (text x :: acc))
            else None
        | Some (x, c1 :: c2 :: rest) =>
            if decide (c1 = ","%char ∧ c2 = " "%char)
            then read_items n' rest (text x :: acc) else None
        | _ => None
        end
      else None
  | _, _ => None
  end.

Definition dumps_list (l : list string) : string :=
  text ("["%char :: write_items l).

Definition loads_list (s : string) : option (list string) :=
  match chars s with
  | o :: s1 =>
      if decide (o = "["%char) then
        if decide (s1 = ["]"%char]) then Some []
        else read_items (length s1) s1 []
      else None
  | [] => None
  end.

Definition array_json : Json :=
  {| json_dumps := dumps_list; json_loads := loads_list |}.

(** ** Test data *)

Definition alice : Key := ("a.txt", "Alice").
Definition bob : Key := ("b.txt", "Bob").

Definition scenario_B : OrderedDict := [(alice, ["chess"]); (bob, ["golf"])].

(** Alice is seen, then Bob, then Alice again. *)
Definition scenario_run : list (Key * list string) :=
  [(alice, ["chess"]); (bob, ["golf"]); (alice, ["reading"])].

(** A row whose interests field is not JSON. *)
Definition corrupt_row : csv_row :=
  {[ "filename" := "b.txt"; "name" := "Bob"; "interests" := "chess, golf" ]}.

Definition alice_row : csv_row := @written_row array_json "a.txt" "Alice" ["chess"].
Definition carol_row : csv_row := @written_row array_json "c.txt" "Carol" ["go"].

(** A file in which the key of Alice occurs twice. *)
Definition duplicate_rows : list csv_row :=
  [ alice_row;
    @written_row array_json "b.txt" "Bob" ["golf"];
    @written_row array_json "a.txt" "Alice" ["reading"] ].

(** The input files of a run: a text file, a file with an extension that is
    not supported, and a path that is no file. *)
Definition sample_files : list input :=
  [ Input "in/a.txt" true (Some [Person (Some " Alice ") (Some ["reading"])]);
    Input "in/b.odt" true (Some [Person (Some "Bob") (Some ["tennis"])]);
    Input "in/c.txt" false None ].

(** A row without the name column. *)
Definition nameless_row : csv_row := {[ "filename" := "b.txt" ]}.

(** A decoder of answers for the examples: an array of strings, read as
    people with these names and no interests. *)
Definition names_json : JsonPeople :=
  λ s, match loads_list s with
       | Some names => Some (map (λ n, Person (Some n) None) names)
       | None => None
       end.

(** An answer with prose around the array. *)
Definition wrapped_answer : string :=
  text (chars " Sure: [" ++ [dquote] ++ chars "Alice" ++ [dquote]
        ++ chars "] Bye. ").

(** * Properties *)

(** ** Strings *)

Lemma text_chars s : text (chars s) = s.
Proof. apply string_of_list_ascii_of_string. Qed.

Lemma chars_text l : chars (text l) = l.
Proof. apply list_ascii_of_string_of_list_ascii. Qed.

Lemma drop_word_Some w s s' : drop_word w s = Some s' ↔ s = w ++ s'.
Proof.
  revert s. induction w as [|c w IH]; intros [|d s]; simpl.
  - split; congruence.
  - split; congruence.
  - split; [done | discriminate].
  - case_decide; simplify_eq; [rewrite IH|]; split; congruence.
Qed.

Lemma drop_one_Some ws s s' :
  drop_one ws s = Some s' → ∃ w, w ∈ ws ∧ s = w ++ s'.
Proof.
  unfold drop_one. induction ws as [|w ws IH]; simpl; [done|].
  destruct (drop_word w s) as [r|] eqn:Hw; simpl.
  - intros [= ->]. exists w. split; [left | by apply drop_word_Some].
  - intros (w' & ? & ?)%IH. exists w'. split; [by right | done].
Qed.

Lemma drop_one_None ws s w r : drop_one ws s = None → w ∈ ws → s ≠ w ++ r.
Proof.
  unfold drop_one. intros Hnone Hw ->.
  induction Hw as [w ws|w w' ws Hw IH]; simpl in Hnone.
  - by rewrite (proj2 (drop_word_Some w (w ++ r) r) eq_refl) in Hnone.
  - destruct (drop_word w' (w ++ r)); [done|]. by apply IH.
Qed.

Lemma lstrip_loop_suffix ws n s :
  ∃ ps, Forall (λ w, w ∈ ws) ps ∧ s = concat ps ++ lstrip_loop ws n s.
Proof.
  revert s. induction n as [|n IH]; intros s; simpl; [by exists []|].
  destruct (drop_one ws s) as [s'|] eqn:Hs; [|by exists []].
  apply drop_one_Some in Hs as (w & Hw & ->).
  destruct (IH s') as (ps & Hps & Hs'). exists (w :: ps).
  split; [by apply Forall_cons|].
  simpl. by rewrite <- app_assoc, <- Hs'.
Qed.

Lemma lstrip_loop_done ws n s :
  Forall (λ w, w ≠ []) ws → length s ≤ n →
  drop_one ws (lstrip_loop ws n s) = None.
Proof.
  intros Hws. revert s. induction n as [|n IH]; intros s Hn; simpl.
  - destruct s; [|simpl in Hn; lia].
    destruct (drop_one ws []) as [s'|] eqn:Hs; [|done].
    apply drop_one_Some in Hs as (w & Hw & Hnil).
    rewrite Forall_forall in Hws. specialize (Hws w Hw).
    symmetry in Hnil. apply app_eq_nil in Hnil as [? _]. done.
  - destruct (drop_one ws s) as [s'|] eqn:Hs; [|done].
    apply IH. apply drop_one_Some in Hs as (w & Hw & ->).
    rewrite Forall_forall in Hws. specialize (Hws w Hw).
    rewrite length_app in Hn. destruct w; [done|]. simpl in Hn. lia.
Qed.

Lemma spaces_nonempty : Forall (λ w, w ≠ []) spaces.
Proof. apply (bool_decide_unpack _). vm_compute. exact I. Qed.

Lemma lstrip_leading s : drop_one spaces (lstrip s) = None.
Proof. apply lstrip_loop_done; [apply spaces_nonempty | done]. Qed.

Lemma reversed_spaces_nonempty : Forall (λ w, w ≠ []) (map reverse spaces).
Proof. apply (bool_decide_unpack _). vm_compute. exact I. Qed.

Lemma rstrip_trailing r :
  drop_one (map reverse spaces) (reverse (rstrip r)) = None.
Proof.
  unfold rstrip. rewrite reverse_involutive.
  apply lstrip_loop_done; [apply reversed_spaces_nonempty|].
  by rewrite length_reverse.
Qed.

Lemma rstrip_prefix r :
  ∃ qs, Forall (λ w, w ∈ map reverse spaces) qs ∧
        r = rstrip r ++ reverse (concat qs).
Proof.
  unfold rstrip.
  destruct (lstrip_loop_suffix (map reverse spaces) (length r) (reverse r))
    as (qs & Hqs & Hr).
  exists qs. split; [done|].
  rewrite <- reverse_app, <- Hr. by rewrite reverse_involutive.
Qed.

(** [strip] takes whitespace, and nothing else, off both ends, and leaves
    none at either end. *)
Lemma strip_spec s :
  (∃ ps qs, Forall (λ w, w ∈ spaces) ps ∧
            Forall (λ w, w ∈ map reverse spaces) qs ∧
            chars s = concat ps ++ chars (strip s) ++ reverse (concat qs)) ∧
  drop_one spaces (chars (strip s)) = None ∧
  drop_one (map reverse spaces) (reverse (chars (strip s))) = None.
Proof.
  unfold strip. rewrite chars_text.
  destruct (lstrip_loop_suffix spaces (length (chars s)) (chars s))
    as (ps & Hps & Hs). fold (lstrip (chars s)) in Hs.
  destruct (rstrip_prefix (lstrip (chars s))) as (qs & Hqs & Hr).
  split_and!.
  - exists ps, qs. split_and!; [done..|]. by rewrite <- Hr.
  - destruct (drop_one spaces (rstrip (lstrip (chars s)))) as [t|] eqn:Ht;
      [|done].
    apply drop_one_Some in Ht as (w & Hw & Ht).
    rewrite Ht, <- app_assoc in Hr.
    by apply (drop_one_None _ _ _ _ (lstrip_leading (chars s)) Hw) in Hr.
  - apply rstrip_trailing.
Qed.

(** ** The dictionary primitives *)

Lemma od_get_None key od : od_get key od = None ↔ key ∉ od.*1.
Proof.
  induction od as [|[k v] od IH]; simpl.
  - split; [intros _; apply not_elem_of_nil | done].
  - rewrite not_elem_of_cons. case_decide; simplify_eq.
    + split; [done | by intros [? _]].
    + rewrite IH. split; [by split | by intros [_ ?]].
Qed.

Lemma od_get_is_Some key od : is_Some (od_get key od) ↔ key ∈ od.*1.
Proof.
  rewrite <- not_eq_None_Some, od_get_None.
  split; [apply dec_stable | auto].
Qed.

Lemma od_get_elem_of key v od : od_get key od = Some v → (key, v) ∈ od.
Proof.
  induction od as [|[k w] od IH]; simpl; [done|].
  case_decide; intros ?; simplify_eq; [left | right; auto].
Qed.

Lemma od_get_app key od1 od2 :
  od_get key (od1 ++ od2) =
  match od_get key od1 with Some v => Some v | None => od_get key od2 end.
Proof.
  induction od1 as [|[k w] od1 IH]; simpl; [done|]. by case_decide.
Qed.

Lemma od_set_fresh key v od : key ∉ od.*1 → od_set key v od = od ++ [(key, v)].
Proof.
  induction od as [|[k w] od IH]; simpl; [done|].
  rewrite not_elem_of_cons. intros [? ?].
  case_decide; [congruence|]. by rewrite IH.
Qed.

Lemma od_set_keys_present key v od :
  key ∈ od.*1 → (od_set key v od).*1 = od.*1.
Proof.
  induction od as [|[k w] od IH]; simpl; [by intros ?%elem_of_nil|].
  case_decide; simplify_eq/=; [done|].
  rewrite elem_of_cons. intros [?|?]; [congruence|]. by rewrite IH.
Qed.

Lemma od_set_U1 key v od : U1 od → U1 (od_set key v od).
Proof.
  unfold U1. intros Hnd. destruct (decide (key ∈ od.*1)) as [Hin|Hin].
  - by rewrite od_set_keys_present.
  - rewrite od_set_fresh, fmap_app by done. simpl.
    apply NoDup_app. split_and!; [done| |apply NoDup_singleton].
    intros k Hk ->%list_elem_of_singleton. done.
Qed.

Lemma od_get_set key v od : od_get key (od_set key v od) = Some v.
Proof.
  induction od as [|[k w] od IH]; simpl; repeat case_decide; simpl;
    repeat case_decide; congruence.
Qed.

Lemma od_get_set_ne key k v od :
  k ≠ key → od_get k (od_set key v od) = od_get k od.
Proof.
  intros Hne. induction od as [|[k' w] od IH]; simpl;
    repeat (case_decide; simpl); congruence.
Qed.

Lemma od_del_cons_eq key v od : od_del key ((key, v) :: od) = od_del key od.
Proof. unfold od_del. apply filter_cons_False. simpl. by intros ?. Qed.

Lemma od_del_cons_ne key k v od :
  k ≠ key → od_del key ((k, v) :: od) = (k, v) :: od_del key od.
Proof. intros ?. unfold od_del. by apply filter_cons_True. Qed.

Lemma od_del_keys key od : (od_del key od).*1 = filter (λ k, k ≠ key) od.*1.
Proof.
  induction od as [|[k w] od IH]; [done|].
  rewrite fmap_cons. simpl. destruct (decide (k = key)) as [->|Hne].
  - rewrite od_del_cons_eq, filter_cons_False by (by intros ?). done.
  - rewrite od_del_cons_ne, filter_cons_True by done. by rewrite fmap_cons, IH.
Qed.

Lemma od_del_not_elem key od : key ∉ (od_del key od).*1.
Proof. rewrite od_del_keys, list_elem_of_filter. by intros [? _]. Qed.

Lemma od_del_fresh key od : key ∉ od.*1 → od_del key od = od.
Proof.
  induction od as [|[k w] od IH]; [done|].
  rewrite fmap_cons, not_elem_of_cons. simpl. intros [? ?].
  rewrite od_del_cons_ne by done. by rewrite IH.
Qed.

Lemma od_get_del_ne key k od : k ≠ key → od_get k (od_del key od) = od_get k od.
Proof.
  intros Hne. induction od as [|[k' w] od IH]; [done|].
  destruct (decide (k' = key)) as [->|Hne'].
  - rewrite od_del_cons_eq, IH. simpl. case_decide; congruence.
  - rewrite od_del_cons_ne by done. simpl. by rewrite IH.
Qed.

Lemma od_del_length key v od :
  U1 od → od_get key od = Some v → S (length (od_del key od)) = length od.
Proof.
  unfold U1. induction od as [|[k w] od IH]; simpl; [done|].
  rewrite NoDup_cons. intros [Hk Hnd].
  case_decide; simplify_eq/=.
  - intros _. by rewrite od_del_cons_eq, od_del_fresh.
  - intros Hget. rewrite od_del_cons_ne by done. simpl. by rewrite IH.
Qed.

Lemma od_index_is_Some key od : is_Some (od_index key od) ↔ key ∈ od.*1.
Proof.
  induction od as [|[k w] od IH]; simpl.
  - rewrite elem_of_nil. split; [by intros [? ?] | done].
  - rewrite elem_of_cons. case_decide; simplify_eq.
    + split; [by left | by eexists].
    + rewrite fmap_is_Some, IH. split; [by right | by intros [?|?]].
Qed.

Lemma od_index_lookup key od i :
  od_index key od = Some i → od.*1 !! i = Some key.
Proof.
  revert i. induction od as [|[k w] od IH]; intros i; simpl; [done|].
  case_decide; simplify_eq/=; [by intros [= <-]|].
  destruct (od_index key od) as [j|] eqn:Hj; simpl; [|done].
  intros [= <-]. simpl. by apply IH.
Qed.

(** ** One upsert *)

Section Upsert.
Context `{SetOrder}.

Lemma upsert_unfold key interests od :
  upsert key interests od = od_del key od ++ [(key, stored key interests od)].
Proof.
  unfold upsert, stored. destruct (od_get key od) as [old|] eqn:Hget.
  - apply od_set_fresh, od_del_not_elem.
  - apply od_get_None in Hget.
    by rewrite od_del_fresh, od_set_fresh.
Qed.

Lemma upsert_keys key interests od :
  (upsert key interests od).*1 = filter (λ k, k ≠ key) od.*1 ++ [key].
Proof. by rewrite upsert_unfold, fmap_app, od_del_keys. Qed.

Lemma upsert_last key interests od :
  last (upsert key interests od) = Some (key, stored key interests od).
Proof. rewrite upsert_unfold. apply last_snoc. Qed.

Lemma upsert_U1 key interests od : U1 od → U1 (upsert key interests od).
Proof.
  unfold U1. rewrite upsert_keys. intros Hnd.
  apply NoDup_app. split_and!.
  - by apply NoDup_filter.
  - intros k [Hne _]%list_elem_of_filter ->%list_elem_of_singleton. done.
  - apply NoDup_singleton.
Qed.

Lemma upsert_get key interests od :
  od_get key (upsert key interests od) = Some (stored key interests od).
Proof.
  rewrite upsert_unfold, od_get_app.
  pose proof (od_del_not_elem key od) as ->%od_get_None.
  simpl. by case_decide.
Qed.

Lemma upsert_get_ne key k interests od :
  k ≠ key → od_get k (upsert key interests od) = od_get k od.
Proof.
  intros Hne. rewrite upsert_unfold, od_get_app, od_get_del_ne by done.
  destruct (od_get k od); [done|]. simpl. case_decide; congruence.
Qed.

Lemma upsert_elem_of_keys key k interests od :
  k ∈ (upsert key interests od).*1 ↔ k = key ∨ k ∈ od.*1.
Proof.
  rewrite upsert_keys, elem_of_app, list_elem_of_filter,
    list_elem_of_singleton.
  destruct (decide (k = key)); intuition congruence.
Qed.

End Upsert.

Lemma od_index_middle key od l1 l2 :
  od.*1 = l1 ++ key :: l2 → key ∉ l1 → od_index key od = Some (length l1).
Proof.
  revert od. induction l1 as [|k l1 IH]; intros [|[k' w] od]; simpl; try done.
  - intros [= -> _] _. by case_decide.
  - intros [= -> Hod] [Hne Hk]%not_elem_of_cons.
    case_decide; [congruence|]. by rewrite (IH od).
Qed.

Lemma precedes_index J K od :
  U1 od → precedes J K od.*1 →
  ∃ i j, od_index J od = Some i ∧ od_index K od = Some j ∧ i < j.
Proof.
  unfold U1. intros Hnd (l1 & l2 & l3 & Hkeys). rewrite Hkeys in Hnd.
  exists (length l1), (length (l1 ++ J :: l2)). split_and!.
  - apply od_index_middle with (l2 ++ K :: l3); [done|].
    apply NoDup_app in Hnd as (_ & Hnd & _).
    intros HJ. apply (Hnd J HJ). left.
  - assert (l1 ++ J :: l2 ++ K :: l3 = (l1 ++ J :: l2) ++ K :: l3) as Heq
      by by rewrite <- app_assoc.
    apply od_index_middle with l3; [congruence|].
    rewrite Heq in Hnd. apply NoDup_app in Hnd as (_ & Hnd & _).
    intros HK. apply (Hnd K HK). left.
  - rewrite length_app. simpl. lia.
Qed.

Lemma precedes_move_to_end J K X keys :
  X ≠ J → X ≠ K → precedes J K keys →
  precedes J K (filter (λ k, k ≠ X) keys ++ [X]).
Proof.
  intros HJ HK (l1 & l2 & l3 & ->).
  exists (filter (λ k, k ≠ X) l1), (filter (λ k, k ≠ X) l2),
    (filter (λ k, k ≠ X) l3 ++ [X]).
  rewrite filter_app, filter_cons_True, filter_app, filter_cons_True
    by congruence.
  rewrite <- app_assoc. simpl. by rewrite <- app_assoc.
Qed.

Section Upserts.
Context `{SetOrder}.

Lemma upserts_app ops1 ops2 od :
  upserts (ops1 ++ ops2) od = upserts ops2 (upserts ops1 od).
Proof. apply foldl_app. Qed.

Lemma upserts_snoc ops key interests od :
  upserts (ops ++ [(key, interests)]) od = upsert key interests (upserts ops od).
Proof. by rewrite upserts_app. Qed.

Lemma upserts_U1 ops od : U1 od → U1 (upserts ops od).
Proof.
  revert od. induction ops as [|[k i] ops IH]; intros od Hod; [done|].
  simpl. by apply IH, upsert_U1.
Qed.

Lemma upserts_get_ne K ops od :
  K ∉ ops.*1 → od_get K (upserts ops od) = od_get K od.
Proof.
  revert od. induction ops as [|[k i] ops IH]; intros od; [done|].
  rewrite fmap_cons, not_elem_of_cons. simpl. intros [Hne HK].
  rewrite IH by done. by apply upsert_get_ne.
Qed.

Lemma upserts_keys_mono k ops od : k ∈ od.*1 → k ∈ (upserts ops od).*1.
Proof.
  revert od. induction ops as [|[k' i] ops IH]; intros od Hk; [done|].
  simpl. apply IH, upsert_elem_of_keys. by right.
Qed.

Lemma upsert_precedes J K interests od :
  J ≠ K → J ∈ od.*1 → precedes J K (upsert K interests od).*1.
Proof.
  intros Hne HJ. rewrite upsert_keys.
  assert (J ∈ filter (λ k, k ≠ K) od.*1) as (l1 & l2 & ->)%list_elem_of_split
    by by apply list_elem_of_filter.
  exists l1, l2, []. by rewrite <- app_assoc.
Qed.

Lemma upserts_precedes J K ops od :
  J ∉ ops.*1 → K ∉ ops.*1 →
  precedes J K od.*1 → precedes J K (upserts ops od).*1.
Proof.
  revert od. induction ops as [|[k i] ops IH]; intros od; [done|].
  rewrite fmap_cons, !not_elem_of_cons. simpl. intros [? ?] [? ?] Hod.
  apply IH; [done..|]. rewrite upsert_keys.
  by apply precedes_move_to_end.
Qed.

End Upserts.

Section UpsertClaims.
Context `{SetOrder}.

Hypothesis set_union_list_NoDup : ∀ a b, NoDup (set_union_list a b).
Hypothesis elem_of_set_union_list :
  ∀ a b x, x ∈ set_union_list a b ↔ x ∈ a ∨ x ∈ b.

(** C1. On a ledger with unique keys, after [upsert key interests] the
    entry of [key] is the last one, the keys are still unique, and the
    ledger is one entry longer when [key] was absent and as long as before
    when it was present; so it grows by at most one. *)
Theorem upsert_postcondition key interests od :
  U1 od →
  (∃ v, last (upsert key interests od) = Some (key, v)) ∧
  U1 (upsert key interests od) ∧
  length (upsert key interests od) ≤ S (length od) ∧
  (key ∉ od.*1 → length (upsert key interests od) = S (length od)) ∧
  (key ∈ od.*1 → length (upsert key interests od) = length od).
Proof.
  intros HU.
  assert (key ∉ od.*1 → length (upsert key interests od) = S (length od))
    as Habsent.
  { intros Hk. rewrite upsert_unfold, od_del_fresh, length_app by done.
    simpl. lia. }
  assert (key ∈ od.*1 → length (upsert key interests od) = length od)
    as Hpresent.
  { intros [v Hv]%od_get_is_Some.
    rewrite upsert_unfold, length_app, <- (od_del_length key v od) by done.
    simpl. lia. }
  split_and!; [|by apply upsert_U1| |done|done].
  - eexists. apply upsert_last.
  - destruct (decide (key ∈ od.*1)) as [Hk|Hk].
    + rewrite Hpresent by done. lia.
    + by rewrite Habsent.
Qed.

(** C10. An upsert of [key] leaves every other key with the interests it
    had, and leaves the entries of the other keys in the order they had. *)
Theorem upsert_frame key interests od :
  (∀ k, k ≠ key → od_get k (upsert key interests od) = od_get k od) ∧
  filter (λ e, e.1 ≠ key) (upsert key interests od) =
    filter (λ e, e.1 ≠ key) od.
Proof.
  split; [intros k Hk; by apply upsert_get_ne|].
  rewrite upsert_unfold, filter_app. unfold od_del.
  rewrite filter_cons_False, filter_nil, app_nil_r by (simpl; by intros ?).
  rewrite list_filter_filter. apply list_filter_iff. tauto.
Qed.

(** C8, the case the script misses: the first upsert of a key stores the
    incoming list as it is, duplicates included. *)
Theorem upsert_new_key_keeps_duplicates :
  upsert alice ["chess"; "chess"] [] = [(alice, ["chess"; "chess"])] ∧
  ¬ NoDup ["chess"; "chess"].
Proof.
  split; [done|]. rewrite NoDup_cons, list_elem_of_singleton. by intros [? _].
Qed.

(** The branch [key in od] does store a list without duplicates. *)
Lemma upsert_present_NoDup key interests od l :
  key ∈ od.*1 → od_get key (upsert key interests od) = Some l → NoDup l.
Proof using set_union_list_NoDup.
  intros [old Hold]%od_get_is_Some. rewrite upsert_get. unfold stored.
  rewrite Hold. by intros [= <-].
Qed.

(** C9. Scenario B: from Alice (chess) at position 0 and Bob (golf) at
    position 1, the upsert of Alice with reading gives Bob at position 0 and
    Alice, with chess and reading, at position 1. *)
Theorem scenario_B_upsert :
  ∃ l, upsert alice ["reading"] scenario_B = [(bob, ["golf"]); (alice, l)] ∧
       as_set l = {["chess"; "reading"]}.
Proof using elem_of_set_union_list.
  eexists. split; [reflexivity|].
  apply set_eq. intros x. unfold as_set.
  rewrite elem_of_list_to_set, elem_of_set_union_list.
  by rewrite elem_of_union, !elem_of_singleton, !list_elem_of_singleton.
Qed.

Lemma as_set_perm (l l' : list string) : l ≡ₚ l' → as_set l = as_set l'.
Proof. intros Hp. unfold as_set. apply set_eq. intros x. by rewrite Hp. Qed.

Lemma as_set_union_list a b :
  as_set (set_union_list a b) = as_set a ∪ as_set b.
Proof using elem_of_set_union_list.
  unfold as_set. apply set_eq. intros x.
  by rewrite elem_of_union, !elem_of_list_to_set, elem_of_set_union_list.
Qed.

(** Two upserts of a key accumulate on what the key held before. *)
Lemma upsert_twice_stored K A B others od :
  K ∉ others.*1 →
  od_get K (upsert K B (upserts others (upsert K A od))) =
    Some (set_union_list (stored K A od) B).
Proof.
  intros Hothers. rewrite upsert_get. unfold stored at 1.
  by rewrite upserts_get_ne, upsert_get by done.
Qed.

Lemma upsert_twice_get K A B others od :
  K ∉ od.*1 → K ∉ others.*1 →
  od_get K (upsert K B (upserts others (upsert K A od))) =
    Some (set_union_list A B).
Proof.
  intros Hod%od_get_None Hothers. rewrite upsert_twice_stored by done.
  unfold stored. by rewrite Hod.
Qed.

(** C2. A key [K] that is new to the ledger and is upserted with [A] and
    later, after upserts of other keys, with [B] holds the union of [A] and
    [B] as a set; the order of the interests inside [A] and inside [B] does
    not change that set. *)
Theorem union_accumulation K A B others od :
  K ∉ od.*1 → K ∉ others.*1 →
  ∃ l, od_get K (upsert K B (upserts others (upsert K A od))) = Some l ∧
       as_set l = as_set A ∪ as_set B ∧
       ∀ A' B', A' ≡ₚ A → B' ≡ₚ B →
         ∃ l', od_get K (upsert K B' (upserts others (upsert K A' od)))
                 = Some l' ∧
               as_set l' = as_set l.
Proof using elem_of_set_union_list.
  intros Hod Hothers. exists (set_union_list A B).
  split_and!; [by apply upsert_twice_get | apply as_set_union_list |].
  intros A' B' HA HB. exists (set_union_list A' B').
  split; [by apply upsert_twice_get|].
  by rewrite !as_set_union_list, (as_set_perm _ _ HA), (as_set_perm _ _ HB).
Qed.

(** C3. In a run of upserts on a ledger with unique keys, the key of each
    upsert is the last key of the ledger right after it; and when the last
    upsert of [K] comes after the last upsert of another key [J], [K] stands
    after [J] in the final ledger, whenever [K] was first seen. *)
Theorem recency_ordering ops od :
  U1 od →
  (∀ ops1 key interests ops2,
     ops = ops1 ++ (key, interests) :: ops2 →
     last (upserts (ops1 ++ [(key, interests)]) od).*1 = Some key) ∧
  (∀ ops1 J a ops2 K b ops3,
     ops = ops1 ++ (J, a) :: ops2 ++ (K, b) :: ops3 →
     J ≠ K → J ∉ (ops2 ++ ops3).*1 → K ∉ ops3.*1 →
     ∃ i j, od_index J (upserts ops od) = Some i ∧
            od_index K (upserts ops od) = Some j ∧ i < j).
Proof.
  intros HU. split.
  - intros ops1 key interests ops2 _.
    rewrite upserts_snoc, upsert_keys. apply last_snoc.
  - intros ops1 J a ops2 K b ops3 -> Hne HJ HK.
    rewrite fmap_app, not_elem_of_app in HJ. destruct HJ as [HJ2 HJ3].
    apply precedes_index; [by apply upserts_U1|].
    rewrite upserts_app. simpl. rewrite upserts_app. simpl.
    apply upserts_precedes; [done..|].
    apply upsert_precedes; [done|].
    apply upserts_keys_mono, upsert_elem_of_keys. by left.
Qed.

End UpsertClaims.

(** ** Loading and writing *)

Lemma od_set_all_U1 od es : U1 od → U1 (od_set_all od es).
Proof.
  revert od. induction es as [|[k v] es IH]; intros od Hod; [done|].
  simpl. by apply IH, od_set_U1.
Qed.

Lemma od_set_all_fresh od es :
  NoDup (od.*1 ++ es.*1) → od_set_all od es = od ++ es.
Proof.
  revert od. induction es as [|[k v] es IH]; intros od; simpl.
  - intros _. by rewrite app_nil_r.
  - intros Hnd. assert (k ∉ od.*1) as Hk.
    { apply NoDup_app in Hnd as (_ & Hnd & _).
      intros Hk. apply (Hnd k Hk). left. }
    rewrite od_set_fresh by done. rewrite IH.
    + by rewrite <- app_assoc.
    + by rewrite fmap_app, <- app_assoc.
Qed.

Lemma od_set_keys key v od :
  (od_set key v od).*1 = if decide (key ∈ od.*1) then od.*1 else od.*1 ++ [key].
Proof.
  case_decide as Hk.
  - by apply od_set_keys_present.
  - by rewrite od_set_fresh, fmap_app.
Qed.

(** The keys of a ledger built by assignments stand in the order in which
    they were first assigned. *)
Lemma od_set_all_keys od es :
  (od_set_all od es).*1
  = foldl (λ ks k, if decide (k ∈ ks) then ks else ks ++ [k]) od.*1 es.*1.
Proof.
  revert od. induction es as [|[k v] es IH]; intros od; [done|].
  simpl. by rewrite IH, od_set_keys.
Qed.

Lemma od_set_all_nil es : NoDup es.*1 → od_set_all [] es = es.
Proof. intros Hnd. by apply (od_set_all_fresh []). Qed.

Lemma od_set_all_get k od es :
  od_get k (od_set_all od es) =
  match last (filter (λ e, e.1 = k) es) with
  | Some e => Some e.2
  | None => od_get k od
  end.
Proof.
  revert od. induction es as [|[k' v] es IH]; intros od; [done|].
  simpl. rewrite IH. destruct (decide (k' = k)) as [->|Hne].
  - rewrite filter_cons_True by done.
    destruct (filter (λ e, e.1 = k) es) as [|e es'] eqn:Hes.
    + simpl. apply od_get_set.
    + rewrite last_cons_cons.
      destruct (last (e :: es')) eqn:Hlast; [done|]. by apply last_None in Hlast.
  - rewrite filter_cons_False by done.
    by rewrite od_get_set_ne by done.
Qed.

Section Csv.
Context `{Json}.

Hypothesis json_loads_dumps : ∀ l, json_loads (json_dumps l) = Some l.

Lemma entries_cons row rows :
  entries (row :: rows) =
  match row_entry row with
  | Some e => e :: entries rows
  | None => entries rows
  end.
Proof. done. Qed.

Lemma entries_app rows1 rows2 :
  entries (rows1 ++ rows2) = entries rows1 ++ entries rows2.
Proof. apply omap_app. Qed.

Lemma load_rows_entries rows od :
  Forall (λ r, is_Some (row_key r)) rows →
  load_rows rows od = Ok (od_set_all od (entries rows)).
Proof.
  revert od. induction rows as [|row rows IH]; intros od; [done|].
  rewrite Forall_cons. intros [[[fn name] Hkey] Hrows].
  unfold entries, row_entry. simpl. rewrite Hkey. simpl.
  unfold row_key in Hkey. unfold getitem.
  destruct (row !! "filename") as [fn'|]; [|done].
  destruct (row !! "name") as [name'|]; [|done].
  simplify_eq/=. by apply IH.
Qed.

Lemma load_rows_raise rows od e :
  load_rows rows od = Raise e →
  ∃ row col, row ∈ rows ∧ col ∈ ["filename"; "name"] ∧
             row !! col = None ∧ e = KeyError col.
Proof.
  revert od. induction rows as [|row rows IH]; intros od; [done|].
  simpl. unfold getitem.
  destruct (row !! "filename") as [fn|] eqn:Hfn; simpl.
  - destruct (row !! "name") as [name|] eqn:Hname; simpl.
    + intros (r & col & ? & ?)%IH. exists r, col. split; [by right|done].
    + intros [= <-]. exists row, "name".
      split_and!; [left|right; left|done..].
  - intros [= <-]. exists row, "filename". split_and!; [left|left|done..].
Qed.

Lemma written_row_lookup fn name interests :
  written_row fn name interests !! "filename" = Some fn ∧
  written_row fn name interests !! "name" = Some name ∧
  written_row fn name interests !! "interests" = Some (json_dumps interests).
Proof.
  unfold written_row. split_and!.
  - apply lookup_insert_eq.
  - rewrite lookup_insert_ne by done. apply lookup_insert_eq.
  - rewrite !lookup_insert_ne by done. apply lookup_singleton_eq.
Qed.

Lemma row_entry_written fn name interests :
  row_entry (written_row fn name interests) = Some ((fn, name), interests).
Proof using json_loads_dumps.
  unfold row_entry, row_key, row_interests.
  destruct (written_row_lookup fn name interests) as (-> & -> & ->).
  simpl. by rewrite json_loads_dumps.
Qed.

Lemma entries_written od : entries (write_ordereddict_to_csv od) = od.
Proof using json_loads_dumps.
  induction od as [|[[fn name] interests] od IH]; [done|].
  change (entries (written_row fn name interests ::
                   write_ordereddict_to_csv od) = (fn, name, interests) :: od).
  by rewrite entries_cons, row_entry_written, IH.
Qed.

Lemma written_has_key od :
  Forall (λ r, is_Some (row_key r)) (write_ordereddict_to_csv od).
Proof.
  apply Forall_fmap, Forall_true. intros [[fn name] interests]. simpl.
  exists (fn, name). unfold row_key.
  by destruct (written_row_lookup fn name interests) as (-> & -> & _).
Qed.

Lemma entries_keys rows : (entries rows).*1 = omap row_key rows.
Proof.
  induction rows as [|row rows IH]; [done|].
  rewrite entries_cons. unfold row_entry.
  change (omap row_key (row :: rows))
    with (match row_key row with
          | Some k => k :: omap row_key rows
          | None => omap row_key rows
          end).
  destruct (row_key row) as [k|]; [|done].
  cbn [mbind option_bind]. by rewrite fmap_cons, IH.
Qed.

Lemma load_entries rows :
  Forall (λ r, is_Some (row_key r)) rows →
  NoDup (omap row_key rows) →
  load_csv_into_ordereddict (Some rows) = Ok (entries rows).
Proof.
  intros Hrows Hnd. simpl. rewrite load_rows_entries by done.
  by rewrite od_set_all_nil by by rewrite entries_keys.
Qed.

(** C4. The rows written for a ledger load back to that ledger, so writing
    what was loaded gives the same rows in the same order; a run of [main]
    over no input files rewrites the CSV it read. *)
Theorem save_load_save od :
  U1 od →
  load_csv_into_ordereddict (Some (write_ordereddict_to_csv od)) = Ok od ∧
  (od' ← load_csv_into_ordereddict (Some (write_ordereddict_to_csv od));
   mret (write_ordereddict_to_csv od')) = Ok (write_ordereddict_to_csv od) ∧
  ∀ `{SetOrder}, main (Some (write_ordereddict_to_csv od)) []
                 = Ok (write_ordereddict_to_csv od).
Proof using json_loads_dumps.
  intros HU.
  assert (load_csv_into_ordereddict (Some (write_ordereddict_to_csv od))
          = Ok od) as Hload.
  { simpl. rewrite load_rows_entries by apply written_has_key.
    by rewrite entries_written, od_set_all_nil. }
  split_and!; [done| |intros ?; unfold main]; by rewrite Hload.
Qed.

(** C5. Loading raises only for a row that lacks the filename or the name
    column. A file with unique keys in which one row has an interests field
    that does not decode loads; that row gets the empty list, and the rows
    before and after it load to the entries they load to without it. *)
Theorem load_one_corrupt_row :
  (∀ file e,
     load_csv_into_ordereddict file = Raise e →
     ∃ rows row col, file = Some rows ∧ row ∈ rows ∧
                     col ∈ ["filename"; "name"] ∧
                     row !! col = None ∧ e = KeyError col) ∧
  (∀ pre bad post key s,
     Forall (λ r, is_Some (row_key r)) (pre ++ bad :: post) →
     NoDup (omap row_key (pre ++ bad :: post)) →
     row_key bad = Some key →
     bad !! "interests" = Some s → json_loads s = None →
     load_csv_into_ordereddict (Some (pre ++ bad :: post))
       = Ok (entries pre ++ (key, []) :: entries post) ∧
     load_csv_into_ordereddict (Some (pre ++ post))
       = Ok (entries pre ++ entries post)).
Proof.
  split.
  - intros [rows|] e; [|done]. simpl.
    intros (row & col & ?)%load_rows_raise. by exists rows, row, col.
  - intros pre bad post key s Hrows Hnd Hkey Hs Hbad. split.
    + rewrite load_entries, entries_app, entries_cons by done.
      unfold row_entry, row_interests. by rewrite Hkey, Hs, Hbad.
    + rewrite load_entries, entries_app; [done| |].
      * apply Forall_app in Hrows as [? [_ ?]%Forall_cons].
        by apply Forall_app.
      * rewrite omap_app in Hnd |- *. simpl in Hnd. rewrite Hkey in Hnd.
        apply NoDup_app in Hnd as (? & Hsep & [_ ?]%NoDup_cons).
        apply NoDup_app. split_and!; [done| |done].
        intros k Hk ?. apply (Hsep k Hk). by right.
Qed.

(** Loading rows that all have the key columns gives a ledger with unique
    keys in which each key holds the interests of the last row with that
    key; when no key occurs twice the ledger is the rows in file order.
    Where a repeated key stands is settled further down. *)
Theorem load_duplicate_keys rows :
  Forall (λ r, is_Some (row_key r)) rows →
  ∃ od, load_csv_into_ordereddict (Some rows) = Ok od ∧
        U1 od ∧
        (∀ k, od_get k od
              = snd <$> last (filter (λ e, e.1 = k) (entries rows))) ∧
        (NoDup (omap row_key rows) → od = entries rows).
Proof.
  intros Hrows. exists (od_set_all [] (entries rows)). split_and!.
  - by apply load_rows_entries.
  - apply od_set_all_U1, NoDup_nil_2.
  - intros k. rewrite od_set_all_get.
    by destruct (last (filter (λ e, e.1 = k) (entries rows))).
  - intros Hnd. by rewrite od_set_all_nil by by rewrite entries_keys.
Qed.

End Csv.

(** ** The instances satisfy the laws *)

Lemma concat_order_NoDup a b : NoDup (@set_union_list concat_order a b).
Proof. apply NoDup_remove_dups. Qed.

Lemma elem_of_concat_order a b x :
  x ∈ @set_union_list concat_order a b ↔ x ∈ a ∨ x ∈ b.
Proof.
  unfold set_union_list, concat_order. by rewrite elem_of_remove_dups, elem_of_app.
Qed.

Lemma read_string_escape_char c s acc :
  read_string (escape_char c ++ s) acc = read_string s (c :: acc).
Proof. destruct c as [[] [] [] [] [] [] [] []]; reflexivity. Qed.

Lemma read_string_escaped x rest acc :
  read_string (flat_map escape_char x ++ dquote :: rest) acc
  = Some (reverse acc ++ x, rest).
Proof.
  revert acc. induction x as [|c x IH]; intros acc.
  - simpl. by rewrite app_nil_r.
  - simpl. rewrite <- app_assoc, read_string_escape_char, IH.
    by rewrite reverse_cons, <- app_assoc.
Qed.

Lemma write_items_length l : length l ≤ length (write_items l).
Proof.
  induction l as [|x [|y l] IH]; simpl in *; [lia| |].
  - rewrite length_app. simpl. lia.
  - rewrite length_app. simpl. lia.
Qed.

Lemma read_string_quoted x rest :
  read_string (flat_map escape_char x ++ dquote :: rest) [] = Some (x, rest).
Proof. apply read_string_escaped. Qed.

Lemma read_items_written l acc n :
  l ≠ [] → length l ≤ n →
  read_items n (write_items l) acc = Some (reverse acc ++ l).
Proof.
  revert acc n. induction l as [|x l IH]; intros acc [|n] Hl Hn;
    simpl in Hn; [done|done|lia|].
  destruct l as [|y l].
  - simpl. rewrite read_string_quoted, decide_True by done.
    by rewrite reverse_cons, text_chars.
  - change (write_items (x :: y :: l))
      with (dquote :: flat_map escape_char (chars x) ++ dquote ::
              ","%char :: " "%char :: write_items (y :: l)).
    cbn [read_items]. rewrite decide_True, read_string_quoted by done.
    rewrite decide_True by done.
    rewrite text_chars, IH by (done || lia).
    by rewrite reverse_cons, <- app_assoc.
Qed.

Lemma loads_dumps_list l : loads_list (dumps_list l) = Some l.
Proof.
  unfold loads_list, dumps_list. rewrite chars_text, decide_True by done.
  destruct l as [|x l]; [done|].
  rewrite decide_False by done.
  apply (read_items_written (x :: l) []); [done|apply write_items_length].
Qed.

(** ** The loop over the input files *)

Section Main.
Context `{SetOrder}.

(** The people of one file are upserted in the order of the array. *)
Lemma process_file_upserts od f people :
  input_is_file f = true → extension (input_path f) ∈ EXTS →
  input_people f = Some people →
  process_file od f = upserts (fact_of (input_path f) <$> people) od.
Proof.
  intros Hfile Hext Hpeople. unfold process_file, upserts.
  rewrite Hfile, (bool_decide_eq_true_2 _ Hext), Hpeople. simpl.
  clear Hpeople. revert od. induction people as [|p people IH]; intros od; [done|].
  simpl. by rewrite IH.
Qed.

(** A file that is skipped leaves the ledger as it is. *)
Lemma process_file_skipped od f :
  input_is_file f = false ∨ extension (input_path f) ∉ EXTS ∨
  input_people f = None →
  process_file od f = od.
Proof.
  unfold process_file. intros [->|[Hext| ->]]; [done| |].
  - rewrite (bool_decide_eq_false_2 _ Hext). by destruct (input_is_file f).
  - by destruct (input_is_file f), (bool_decide _).
Qed.

(** The name of a fact is the stripped name of the person. *)
Lemma fact_of_name path p :
  (fact_of path p).1 = (basename path, strip (default "" (person_name p))).
Proof. done. Qed.

(** C7, the case the script misses: a person whose name is blank after
    [strip] is upserted all the same, under the empty name. *)
Theorem blank_name_is_upserted :
  strip "  " = "" ∧
  process_file []
    (Input "notes/a.txt" true (Some [Person (Some "  ") (Some ["chess"])]))
  = [(("a.txt", ""), ["chess"])].
Proof. split; reflexivity. Qed.

End Main.

(** ** Runs of upserts *)

Lemma filter_ne_remove_dups (k : Key) (l : list Key) :
  filter (λ x, x ≠ k) (remove_dups (k :: l))
  = filter (λ x, x ≠ k) (remove_dups l).
Proof.
  simpl. case_decide; [done|]. by rewrite filter_cons_False by (by intros ?).
Qed.

Lemma remove_dups_snoc (l : list Key) (k : Key) :
  remove_dups (l ++ [k]) = filter (λ x, x ≠ k) (remove_dups l) ++ [k].
Proof.
  induction l as [|x l IH]; [done|].
  destruct (decide (x = k)) as [->|Hne].
  - rewrite filter_ne_remove_dups, <- IH. simpl.
    case_decide as Hk; [done|]. exfalso. apply Hk.
    apply elem_of_app. right. left.
  - simpl. rewrite IH. repeat case_decide; try done.
    + exfalso. rewrite elem_of_app, list_elem_of_singleton in *. tauto.
    + exfalso. rewrite elem_of_app in *. tauto.
    + by rewrite filter_cons_True by done.
Qed.

Lemma filter_all {A} (P : A → Prop) `{∀ x, Decision (P x)} (l : list A) :
  Forall P l → filter P l = l.
Proof.
  induction 1 as [|x l Hx Hl IH]; [done|]. by rewrite filter_cons_True, IH.
Qed.

Lemma filter_none {A} (P : A → Prop) `{∀ x, Decision (P x)} (l : list A) :
  Forall (λ x, ¬ P x) l → filter P l = [].
Proof.
  induction 1 as [|x l Hx Hl IH]; [done|]. by rewrite filter_cons_False.
Qed.

Section Runs.
Context `{SetOrder}.

Hypothesis elem_of_set_union_list :
  ∀ a b x, x ∈ set_union_list a b ↔ x ∈ a ∨ x ∈ b.

Lemma upserts_keys ops od :
  (upserts ops od).*1
  = filter (λ k, k ∉ ops.*1) od.*1 ++ remove_dups ops.*1.
Proof.
  induction ops as [|[k i] ops IH] using rev_ind.
  - simpl. rewrite app_nil_r. symmetry. apply filter_all, Forall_forall.
    intros k _. apply not_elem_of_nil.
  - rewrite upserts_snoc, upsert_keys, IH, fmap_app. simpl.
    rewrite remove_dups_snoc, filter_app, list_filter_filter, <- app_assoc.
    f_equal. apply list_filter_iff. intros x.
    rewrite elem_of_app, list_elem_of_singleton. tauto.
Qed.

Lemma as_set_stored key interests od :
  as_set (stored key interests od)
  = as_set (default [] (od_get key od)) ∪ as_set interests.
Proof using elem_of_set_union_list.
  unfold stored. destruct (od_get key od) as [old|]; simpl.
  - unfold as_set. apply set_eq. intros x.
    by rewrite elem_of_union, !elem_of_list_to_set, elem_of_set_union_list.
  - unfold as_set. simpl. by rewrite (left_id_L ∅ (∪)).
Qed.

Lemma supplied_snoc K ops k i :
  supplied K (ops ++ [(k, i)])
  = supplied K ops ∪ (if decide (k = K) then as_set i else ∅).
Proof.
  unfold supplied. rewrite filter_app, !fmap_app, union_list_app_L.
  f_equal. case_decide.
  - rewrite filter_cons_True by done. simpl. by rewrite (right_id_L ∅ (∪)).
  - by rewrite filter_cons_False by done.
Qed.

Lemma upserts_accumulate K ops od :
  as_set (default [] (od_get K (upserts ops od)))
  = as_set (default [] (od_get K od)) ∪ supplied K ops.
Proof using elem_of_set_union_list.
  induction ops as [|[k i] ops IH] using rev_ind.
  - unfold supplied. simpl. by rewrite (right_id_L ∅ (∪)).
  - rewrite upserts_snoc, supplied_snoc. case_decide as Hk.
    + subst k. rewrite upsert_get. simpl. rewrite as_set_stored, IH.
      by rewrite (assoc_L (∪)).
    + rewrite upsert_get_ne, IH by done. by rewrite (right_id_L ∅ (∪)).
Qed.

(** X3. An upsert done twice in a row leaves the keys where the first left them
    and every key with the set it had after the first. *)
Theorem upsert_twice key interests od :
  (upsert key interests (upsert key interests od)).*1
    = (upsert key interests od).*1 ∧
  ∀ k, as_set <$> od_get k (upsert key interests (upsert key interests od))
       = as_set <$> od_get k (upsert key interests od).
Proof using elem_of_set_union_list.
  split.
  - rewrite !upsert_keys, filter_app, list_filter_filter.
    rewrite (filter_cons_False _ key) by (by intros ?).
    rewrite filter_nil, app_nil_r. f_equal.
    apply list_filter_iff. tauto.
  - intros k. destruct (decide (k = key)) as [->|Hne].
    + rewrite !upsert_get. simpl. f_equal.
      rewrite (as_set_stored key interests (upsert key interests od)).
      rewrite upsert_get. simpl. rewrite as_set_stored.
      rewrite <- (assoc_L (∪)). by rewrite (idemp_L (∪)).
    + by rewrite !upsert_get_ne by done.
Qed.


(** X1. After a run of upserts the ledger has first the keys the run did not
    touch, in the order they had, and then the keys of the run in the order
    of their last upserts. *)
Theorem run_key_order ops od :
  (upserts ops od).*1
  = filter (λ k, k ∉ ops.*1) od.*1 ++ remove_dups ops.*1.
Proof. apply upserts_keys. Qed.

(** X2. After a run of upserts a key holds, as a set, what it held before
    and every interest the run supplied for it. *)
Theorem run_accumulates K ops od :
  as_set (default [] (od_get K (upserts ops od)))
  = as_set (default [] (od_get K od)) ∪ supplied K ops.
Proof using elem_of_set_union_list. apply upserts_accumulate. Qed.

(** X24. A run of upserts done a second time leaves the keys in the order
    the first run gave them and every key with the same set. *)
Theorem run_twice ops od :
  (upserts ops (upserts ops od)).*1 = (upserts ops od).*1 ∧
  ∀ k, as_set (default [] (od_get k (upserts ops (upserts ops od))))
       = as_set (default [] (od_get k (upserts ops od))).
Proof using elem_of_set_union_list.
  split.
  - rewrite (upserts_keys ops (upserts ops od)), (upserts_keys ops od).
    rewrite filter_app, list_filter_filter. f_equal.
    assert (filter (λ k, k ∉ ops.*1) (remove_dups ops.*1) = []) as ->.
    { apply filter_none, Forall_forall.
      intros k Hk Hnot. apply Hnot. by apply elem_of_remove_dups. }
    rewrite app_nil_r. apply list_filter_iff. tauto.
  - intros k. rewrite !upserts_accumulate.
    rewrite <- (assoc_L (∪)). by rewrite (idemp_L (∪)).
Qed.

End Runs.

(** ** The whole loop of main *)

Lemma after_last_no_sep sep acc s :
  sep ∉ s → after_last sep acc s = reverse acc ++ s.
Proof.
  revert acc. induction s as [|c s IH]; intros acc; simpl.
  - intros _. by rewrite app_nil_r.
  - rewrite not_elem_of_cons. intros [Hne Hs].
    rewrite decide_False, IH by done.
    by rewrite reverse_cons, <- app_assoc.
Qed.

Lemma after_last_app sep acc pre post :
  sep ∉ post → after_last sep acc (pre ++ sep :: post) = post.
Proof.
  intros Hpost. revert acc. induction pre as [|c pre IH]; intros acc; simpl.
  - rewrite decide_True by done. by apply (after_last_no_sep sep []).
  - case_decide; apply IH.
Qed.

Lemma after_last_spec sep acc s :
((sep ∉ s) ∧ after_last sep acc s = reverse acc ++ s) ∨
  (∃ pre, s = pre ++ sep :: after_last sep acc s ∧
          sep ∉ after_last sep acc s).
Proof.
  revert acc. induction s as [|c s IH]; intros acc; simpl.
  - left. split; [apply not_elem_of_nil | by rewrite app_nil_r].
  - case_decide as Hc.
    + subst c. right. destruct (IH []) as [[Hs Heq]|(pre & Hs & Hr)].
      * exists []. simpl in Heq. rewrite Heq. by split.
      * exists (sep :: pre). split; [by rewrite Hs at 1|done].
    + destruct (IH (c :: acc)) as [[Hs Heq]|(pre & Hs & Hr)].
      * left. rewrite not_elem_of_cons, Heq, reverse_cons, <- app_assoc.
        by split.
      * right. exists (c :: pre). split; [by rewrite Hs at 1|done].
Qed.

Lemma after_last_not_elem sep s : sep ∉ after_last sep [] s.
Proof.
  destruct (after_last_spec sep [] s) as [[Hs Heq]|(pre & Hpre & Hr)];
    [|done].
  by rewrite Heq.
Qed.

Section MainLoop.
Context `{SetOrder}.

Hypothesis elem_of_set_union_list :
  ∀ a b x, x ∈ set_union_list a b ↔ x ∈ a ∨ x ∈ b.

Lemma process_file_facts od f : process_file od f = upserts (facts_of_file f) od.
Proof.
  unfold facts_of_file.
  destruct (input_is_file f) eqn:Hfile; simpl.
  - case_bool_decide as Hext.
    + destruct (input_people f) as [people|] eqn:Hpeople.
      * by apply process_file_upserts.
      * apply process_file_skipped. by right; right.
    + apply process_file_skipped. by right; left.
  - apply process_file_skipped. by left.
Qed.

Lemma main_loop_upserts files od :
  foldl process_file od files = upserts (files ≫= facts_of_file) od.
Proof.
  revert od. induction files as [|f files IH]; intros od; [done|].
  simpl. rewrite IH, process_file_facts. symmetry. apply upserts_app.
Qed.

(** X6. Input files that are missing, have an unsupported extension, or whose
    extraction or analysis failed can be left out of the list without
    changing the ledger. *)
Theorem main_loop_skips files od :
  foldl process_file od files
  = foldl process_file od
      (filter (λ f, input_is_file f = true ∧
                    extension (input_path f) ∈ EXTS ∧
                    is_Some (input_people f)) files).
Proof.
  rewrite !main_loop_upserts. f_equal.
  induction files as [|f files IH]; [done|].
  rewrite bind_cons, IH.
  destruct (decide (input_is_file f = true ∧ extension (input_path f) ∈ EXTS ∧
                    is_Some (input_people f))) as [Hf|Hf].
  - by rewrite filter_cons_True, bind_cons by done.
  - rewrite filter_cons_False by done.
    assert (facts_of_file f = []) as ->; [|done].
    unfold facts_of_file.
    destruct (input_is_file f); simpl; [|done].
    case_bool_decide; [|done].
    destruct (input_people f); [|done].
    exfalso. apply Hf. by split_and!.
Qed.

(** X7. The loop over the input files never drops a key and never drops an
    interest of a key. *)
Theorem main_loop_monotone files od k :
  k ∈ od.*1 →
  k ∈ (foldl process_file od files).*1 ∧
  as_set (default [] (od_get k od))
    ⊆ as_set (default [] (od_get k (foldl process_file od files))).
Proof using elem_of_set_union_list.
  intros Hk. rewrite main_loop_upserts. split.
  - by apply upserts_keys_mono.
  - rewrite (upserts_accumulate elem_of_set_union_list). apply union_subseteq_l.
Qed.

(** X8. A key that the loop adds to the ledger comes from a person of an input
    file: its file name is the base name of the path and has no slash, and
    its name has no whitespace at either end. *)
Theorem main_loop_new_key files od k :
  k ∈ (foldl process_file od files).*1 → k ∉ od.*1 →
  ∃ f p people,
    f ∈ files ∧ input_is_file f = true ∧ extension (input_path f) ∈ EXTS ∧
    input_people f = Some people ∧ p ∈ people ∧
    k = (basename (input_path f), strip (default "" (person_name p))) ∧
    ("/"%char ∉ chars k.1) ∧
    drop_one spaces (chars k.2) = None ∧
    drop_one (map reverse spaces) (reverse (chars k.2)) = None.
Proof.
  rewrite main_loop_upserts, upserts_keys, elem_of_app, list_elem_of_filter,
    elem_of_remove_dups.
  intros [[_ ?]|Hk] Hod; [done|].
  apply list_elem_of_fmap in Hk as ([k' i] & -> & Hop).
  apply list_elem_of_bind in Hop as (f & Hop & Hf).
  unfold facts_of_file in Hop.
  destruct (input_is_file f) eqn:Hfile; [|by apply elem_of_nil in Hop].
  simpl in Hop. case_bool_decide as Hext; [|by apply elem_of_nil in Hop].
  destruct (input_people f) as [people|] eqn:Hpeople;
    [|by apply elem_of_nil in Hop].
  apply list_elem_of_fmap in Hop as (p & Hfact & Hp).
  exists f, p, people. unfold fact_of in Hfact. simplify_eq/=.
  split_and!; [done..| | |].
  - unfold basename. rewrite chars_text. apply after_last_not_elem.
  - apply strip_spec.
  - apply strip_spec.
Qed.

(** X5. The loop over the input files is one run of upserts: the facts of
    the files in the order of the files, and inside a file in the order of
    the analysis. *)
Theorem main_loop_is_one_run files od :
  foldl process_file od files = upserts (files ≫= facts_of_file) od.
Proof. apply main_loop_upserts. Qed.

End MainLoop.

(** ** More on loading and writing *)

Lemma first_occurrences_foldl (keys : list Key) :
  foldl (λ ks k, if decide (k ∈ ks) then ks else ks ++ [k]) [] keys
  = first_occurrences keys.
Proof.
  unfold first_occurrences.
  induction keys as [|k keys IH] using rev_ind; [done|].
  rewrite foldl_snoc, IH, reverse_snoc. simpl.
  repeat case_decide; try done.
  - exfalso. rewrite elem_of_reverse, elem_of_remove_dups, elem_of_reverse in *.
    tauto.
  - exfalso. rewrite elem_of_reverse, elem_of_remove_dups, elem_of_reverse in *.
    tauto.
  - by rewrite reverse_cons.
Qed.

Section Loading.
Context `{Json}.

Lemma load_rows_has_key rows od od' :
  load_rows rows od = Ok od' → Forall (λ r, is_Some (row_key r)) rows.
Proof.
  revert od. induction rows as [|row rows IH]; intros od; [done|].
  simpl. unfold getitem.
  destruct (row !! "filename") as [fn|] eqn:Hfn; [|done].
  destruct (row !! "name") as [name|] eqn:Hname; [|done].
  simpl. intros Hload. apply Forall_cons. split; [|by eapply IH].
  exists (fn, name). unfold row_key. by rewrite Hfn, Hname.
Qed.

(** X10. Loading succeeds exactly when every row has the filename and the name
    column; otherwise it raises the [KeyError] of the first row that lacks
    one, for the filename column when both are missing. *)
Theorem load_error rows :
  ((∃ od, load_csv_into_ordereddict (Some rows) = Ok od)
   ↔ Forall (λ r, is_Some (row_key r)) rows) ∧
  (∀ pre bad post,
     rows = pre ++ bad :: post →
     Forall (λ r, is_Some (row_key r)) pre → row_key bad = None →
     load_csv_into_ordereddict (Some rows)
     = Raise (KeyError (match bad !! "filename" with
                        | Some _ => "name"
                        | None => "filename"
                        end))).
Proof.
  split.
  - split.
    + intros [od Hload]. by eapply load_rows_has_key.
    + intros Hrows. eexists. by apply load_rows_entries.
  - intros pre bad post -> Hpre Hbad. simpl. generalize ([] : OrderedDict).
    induction Hpre as [|row pre [[fn name] Hrow] Hpre IH]; intros od; simpl.
    + unfold getitem. unfold row_key in Hbad.
      destruct (bad !! "filename") as [fn|]; [|done].
      by destruct (bad !! "name") as [name|].
    + unfold getitem. unfold row_key in Hrow.
      destruct (row !! "filename") as [fn'|]; [|done].
      destruct (row !! "name") as [name'|]; [|done]. simpl. apply IH.
Qed.

(** X11. The loaded ledger has its keys in the order in which the file first
    names them: a key that occurs again keeps its place. *)
Theorem load_key_order rows od :
  load_csv_into_ordereddict (Some rows) = Ok od →
  od.*1 = first_occurrences (omap row_key rows).
Proof.
  intros Hload. pose proof (load_rows_has_key _ _ _ Hload) as Hrows.
  simpl in Hload. rewrite load_rows_entries in Hload by done.
  injection Hload as <-.
  by rewrite od_set_all_keys, entries_keys, first_occurrences_foldl.
Qed.

(** X12. Every list of interests in the loaded ledger is empty or is what the
    interests field of a row with that key decodes to. *)
Theorem load_interests rows od k l :
  load_csv_into_ordereddict (Some rows) = Ok od →
  od_get k od = Some l →
  l = [] ∨
  ∃ row s, row ∈ rows ∧ row_key row = Some k ∧
           row !! "interests" = Some s ∧ json_loads s = Some l.
Proof.
  intros Hload. pose proof (load_rows_has_key _ _ _ Hload) as Hrows.
  simpl in Hload. rewrite load_rows_entries in Hload by done.
  injection Hload as <-. rewrite od_set_all_get. simpl.
  destruct (last (filter (λ e, e.1 = k) (entries rows))) as [[k' l']|] eqn:Hlast;
    [|done].
  intros [= ->]. apply last_Some_elem_of, list_elem_of_filter in Hlast.
  destruct Hlast as [Hk He]. simpl in Hk. subst k'.
  apply list_elem_of_omap in He as (row & Hrow & Hentry).
  unfold row_entry in Hentry.
  destruct (row_key row) as [k'|] eqn:Hkey; [|done].
  simpl in Hentry. injection Hentry as -> Hl.
  unfold row_interests in Hl.
  destruct (row !! "interests") as [s|] eqn:Hs; [|by left].
  destruct (json_loads s) as [l'|] eqn:Hdec; [|by left].
  right. exists row, s. simpl in Hl. by subst l'.
Qed.

(** C6, as amended. Loading rows that all have the key columns gives a
    ledger with unique keys in which a key that occurs in several rows has
    one entry, at the place of its first row and with the interests of its
    last row; when no key occurs twice the ledger is the rows in file
    order. *)
Theorem load_duplicates_first_position rows :
  Forall (λ r, is_Some (row_key r)) rows →
  ∃ od, load_csv_into_ordereddict (Some rows) = Ok od ∧
        U1 od ∧
        od.*1 = first_occurrences (omap row_key rows) ∧
        (∀ k, od_get k od
              = snd <$> last (filter (λ e, e.1 = k) (entries rows))) ∧
        (NoDup (omap row_key rows) → od = entries rows).
Proof.
  intros Hrows. exists (od_set_all [] (entries rows)). split_and!.
  - by apply load_rows_entries.
  - apply od_set_all_U1, NoDup_nil_2.
  - by rewrite od_set_all_keys, entries_keys, first_occurrences_foldl.
  - intros k. rewrite od_set_all_get.
    by destruct (last (filter (λ e, e.1 = k) (entries rows))).
  - intros Hnd. by rewrite od_set_all_nil by by rewrite entries_keys.
Qed.

Lemma load_rows_U1 rows od od' :
  load_rows rows od = Ok od' → U1 od → U1 od'.
Proof.
  revert od. induction rows as [|row rows IH]; intros od; simpl.
  - by intros [= <-].
  - unfold getitem.
    destruct (row !! "filename") as [fn|]; [|done].
    destruct (row !! "name") as [name|]; [|done]. simpl.
    intros Hload HU. eapply IH; [done|]. by apply od_set_U1.
Qed.

Lemma written_rows od :
  Forall (λ row : csv_row, dom row = list_to_set CSV_FIELDS)
         (write_ordereddict_to_csv od) ∧
  omap row_key (write_ordereddict_to_csv od) = od.*1.
Proof.
  split.
  - apply Forall_fmap, Forall_true. intros [[fn name] interests]. simpl.
    unfold written_row, CSV_FIELDS. rewrite !dom_insert_L, dom_singleton_L.
    simpl. by rewrite (right_id_L ∅ (∪)).
  - induction od as [|[[fn name] interests] od IH]; [done|].
    change (write_ordereddict_to_csv ((fn, name, interests) :: od))
      with (written_row fn name interests :: write_ordereddict_to_csv od).
    change (omap row_key (written_row fn name interests ::
                          write_ordereddict_to_csv od))
      with (match row_key (written_row fn name interests) with
            | Some k => k :: omap row_key (write_ordereddict_to_csv od)
            | None => omap row_key (write_ordereddict_to_csv od)
            end).
    unfold row_key at 1.
    destruct (written_row_lookup fn name interests) as (-> & -> & _).
    simpl. by rewrite IH.
Qed.

(** X9. Whatever the CSV and the input files are, a run of [main] that ends
    writes rows that all have both key columns and no key twice. *)
Theorem main_unique_keys `{SetOrder} file files rows :
  main file files = Ok rows →
  Forall (λ r, is_Some (row_key r)) rows ∧ NoDup (omap row_key rows).
Proof.
  unfold main.
  destruct (load_csv_into_ordereddict file) as [od|e] eqn:Hload; [|done].
  simpl. intros [= <-]. split; [apply written_has_key|].
  rewrite (proj2 (written_rows _)), main_loop_upserts.
  apply upserts_U1. destruct file as [rows|]; simpl in Hload.
  - eapply load_rows_U1; [done|]. apply NoDup_nil_2.
  - injection Hload as <-. apply NoDup_nil_2.
Qed.

(** X13. The rows written for a ledger have exactly the columns of the
    header, and their filename and name columns give the keys of the ledger
    in order. *)
Theorem written_rows_shape od :
  Forall (λ row : csv_row, dom row = list_to_set CSV_FIELDS)
         (write_ordereddict_to_csv od) ∧
  omap row_key (write_ordereddict_to_csv od) = od.*1.
Proof. apply written_rows. Qed.

End Loading.

(** ** Paths *)

(** X14. A path is supported exactly when, with its ASCII letters lowered, it is
    one of the four extension words or ends with a dot and one of them. *)
Theorem extension_supported path :
  extension path ∈ EXTS ↔
  ∃ e, e ∈ EXTS ∧
       (map lower_char (chars path) = chars e ∨
        ∃ pre, map lower_char (chars path) = pre ++ "."%char :: chars e).
Proof.
  unfold extension. split.
  - intros Hext. eexists. split; [exact Hext|]. rewrite chars_text.
    destruct (after_last_spec "."%char [] (map lower_char (chars path)))
      as [[_ Heq]|(pre & Hpre & _)].
    + left. by rewrite Heq.
    + right. by exists pre.
  - intros (e & He & Hpath).
    assert ("."%char ∉ chars e) as Hdot.
    { unfold EXTS in He. rewrite !elem_of_cons, elem_of_nil in He.
      destruct He as [->|[->|[->|[->|[]]]]];
        apply (bool_decide_unpack _); vm_compute; exact I. }
    destruct Hpath as [->|[pre ->]].
    + rewrite (after_last_no_sep _ []) by done. simpl. by rewrite text_chars.
    + rewrite after_last_app by done. by rewrite text_chars.
Qed.

(** X15. The base name of a path is what follows its last slash: the directory
    part does not reach the key, so files of the same name in different
    directories share their keys. *)
Theorem basename_directory dir dir' file :
  ("/"%char ∉ file) →
  basename (text (dir ++ "/"%char :: file)) = text file ∧
  basename (text file) = text file ∧
  basename (text (dir ++ "/"%char :: file))
    = basename (text (dir' ++ "/"%char :: file)).
Proof.
  intros Hfile. unfold basename. rewrite !chars_text.
  rewrite !after_last_app by done.
  by rewrite (after_last_no_sep _ []) by done.
Qed.

Lemma lstrip_loop_fixed ws n s : drop_one ws s = None → lstrip_loop ws n s = s.
Proof. intros Hs. destruct n; simpl; [done|]. by rewrite Hs. Qed.

(** X17. Stripping a stripped string changes nothing. *)
Theorem strip_idempotent s : strip (strip s) = strip s.
Proof.
  destruct (strip_spec s) as (_ & Hlead & Htrail).
  unfold strip at 1. unfold lstrip, rstrip.
  rewrite (lstrip_loop_fixed _ _ _ Hlead), (lstrip_loop_fixed _ _ _ Htrail).
  by rewrite reverse_involutive, text_chars.
Qed.

(** X16. Stripping takes whitespace, and nothing else, off both ends of a
    string, and leaves none at either end. *)
Theorem strip_trims s :
  (∃ ps qs, Forall (λ w, w ∈ spaces) ps ∧
            Forall (λ w, w ∈ map reverse spaces) qs ∧
            chars s = concat ps ++ chars (strip s) ++ reverse (concat qs)) ∧
  drop_one spaces (chars (strip s)) = None ∧
  drop_one (map reverse spaces) (reverse (chars (strip s))) = None.
Proof. apply strip_spec. Qed.

(** ** The answer of the analysis *)

Lemma after_first_Some c s rest :
  after_first c s = Some rest ↔ ∃ pre, s = pre ++ c :: rest ∧ c ∉ pre.
Proof.
  revert rest. induction s as [|d s IH]; intros rest; simpl.
  - split; [done|]. intros (pre & Hs & _). by destruct pre.
  - case_decide as Hd.
    + subst d. split.
      * intros [= ->]. exists []. split; [done|apply not_elem_of_nil].
      * intros ([|x pre] & Hs & Hpre); simplify_eq/=; [done|].
        exfalso. apply Hpre. left.
    + rewrite IH. split.
      * intros (pre & -> & Hpre). exists (d :: pre).
        split; [done|]. rewrite not_elem_of_cons. by split.
      * intros ([|x pre] & Hs & Hpre); simplify_eq/=.
        exists pre. split; [done|]. by apply not_elem_of_cons in Hpre as [_ ?].
Qed.

Lemma after_first_None c s : after_first c s = None ↔ c ∉ s.
Proof.
  induction s as [|d s IH]; simpl.
  - split; [intros _; apply not_elem_of_nil|done].
  - rewrite not_elem_of_cons. case_decide; [|rewrite IH]; split; try done.
    + by intros [? _].
    + by intros [_ ?].
Qed.

Lemma before_last_Some c s body :
  before_last c s = Some body ↔ ∃ post, s = body ++ c :: post ∧ c ∉ post.
Proof.
  unfold before_last. rewrite fmap_Some. split.
  - intros (r & (pre & Hs & Hpre)%after_first_Some & ->).
    exists (reverse pre). rewrite elem_of_reverse. split; [|done].
    apply (f_equal reverse) in Hs. rewrite reverse_involutive in Hs.
    by rewrite Hs, reverse_app, reverse_cons, <- app_assoc.
  - intros (post & -> & Hpost). exists (reverse body).
    split; [|by rewrite reverse_involutive].
    apply after_first_Some. exists (reverse post).
    rewrite elem_of_reverse. split; [|done].
    by rewrite reverse_app, reverse_cons, <- app_assoc.
Qed.

Lemma before_last_None c s : before_last c s = None ↔ c ∉ s.
Proof.
  unfold before_last. by rewrite fmap_None, after_first_None, elem_of_reverse.
Qed.

Lemma bracket_span_spec raw :
  (∀ m, bracket_span raw = Some m ↔
        ∃ pre body post,
          raw = pre ++ "["%char :: body ++ "]"%char :: post ∧
          ("["%char ∉ pre) ∧ ("]"%char ∉ post) ∧
          m = "["%char :: body ++ ["]"%char]) ∧
  (bracket_span raw = None ↔
   ("["%char ∉ raw) ∨
   ∃ pre rest, raw = pre ++ "["%char :: rest ∧
               ("["%char ∉ pre) ∧ ("]"%char ∉ rest)).
Proof.
  unfold bracket_span. split.
  - intros m. split.
    + destruct (after_first "["%char raw) as [rest|] eqn:Hrest; [|done].
      simpl. destruct (before_last "]"%char rest) as [body|] eqn:Hbody; [|done].
      simpl. intros [= <-].
      apply after_first_Some in Hrest as (pre & -> & Hpre).
      apply before_last_Some in Hbody as (post & -> & Hpost).
      by exists pre, body, post.
    + intros (pre & body & post & -> & Hpre & Hpost & ->).
      rewrite (proj2 (after_first_Some _ _ (body ++ "]"%char :: post)))
        by by exists pre.
      simpl. rewrite (proj2 (before_last_Some _ _ body)) by by exists post.
      done.
  - destruct (after_first "["%char raw) as [rest|] eqn:Hrest; simpl.
    + apply after_first_Some in Hrest as (pre & -> & Hpre).
      destruct (before_last "]"%char rest) as [body|] eqn:Hbody; simpl.
      * split; [done|]. intros [Hraw|(pre' & rest' & Heq & Hpre' & Hrest')].
        -- exfalso. apply Hraw, elem_of_app. right. left.
        -- assert (after_first "["%char (pre ++ "["%char :: rest) = Some rest')
             as Hr by (apply after_first_Some; by exists pre').
           rewrite (proj2 (after_first_Some _ _ rest)) in Hr by by exists pre.
           injection Hr as <-. apply before_last_None in Hrest'. congruence.
      * split; [|done]. intros _. right. exists pre, rest.
        by apply before_last_None in Hbody.
    + split; [|done]. intros _. left. by apply after_first_None.
Qed.

(** X18. The span the search finds runs from the first opening bracket of
    the text to its last closing bracket behind it; there is none when the
    text has no opening bracket, or no closing bracket behind the first
    one. *)
Theorem bracket_span_first_to_last raw :
  (∀ m, bracket_span raw = Some m ↔
        ∃ pre body post,
          raw = pre ++ "["%char :: body ++ "]"%char :: post ∧
          ("["%char ∉ pre) ∧ ("]"%char ∉ post) ∧
          m = "["%char :: body ++ ["]"%char]) ∧
  (bracket_span raw = None ↔
   ("["%char ∉ raw) ∨
   ∃ pre rest, raw = pre ++ "["%char :: rest ∧
               ("["%char ∉ pre) ∧ ("]"%char ∉ rest)).
Proof. apply bracket_span_spec. Qed.

Section Answer.
Context `{JsonPeople}.

(** X19. An answer that wraps the array in prose is recovered: when the stripped
    answer does not decode, the part from its first opening to its last
    closing bracket is decoded in its place. *)
Theorem read_answer_recovers content pre body post people :
  chars (strip content) = pre ++ "["%char :: body ++ "]"%char :: post →
  ("["%char ∉ pre) → ("]"%char ∉ post) →
  json_loads_people (strip content) = None →
  json_loads_people (text ("["%char :: body ++ ["]"%char])) = Some people →
  read_answer content = Returned people.
Proof.
  intros Hraw Hpre Hpost Hwhole Hspan. unfold read_answer.
  rewrite Hwhole.
  rewrite (proj2 (proj1 (bracket_span_spec _) ("["%char :: body ++ ["]"%char])))
    by by exists pre, body, post.
  by rewrite Hspan.
Qed.

(** X20. An answer is refused in two ways only: with the [ValueError] that
    carries the stripped answer when that has no bracketed span, and with
    the [JSONDecodeError] of the second decoding when the span does not
    decode. In both the stripped answer itself does not decode. *)
Theorem read_answer_raises content e :
  read_answer content = Raised e →
  json_loads_people (strip content) = None ∧
  ((e = ValueError ("Could not parse JSON:" +:+ line_feed +:+ strip content) ∧
    bracket_span (chars (strip content)) = None) ∨
   (e = JSONDecodeError ∧
    ∃ m, bracket_span (chars (strip content)) = Some m ∧
         json_loads_people (text m) = None)).
Proof.
  unfold read_answer.
  destruct (json_loads_people (strip content)); [done|].
  destruct (bracket_span (chars (strip content))) as [m|].
  - destruct (json_loads_people (text m)) eqn:Hm; [done|].
    intros [= <-]. split; [done|]. right. split; [done|]. by exists m.
  - intros [= <-]. split; [done|]. by left.
Qed.

End Answer.

(** ** Text extraction *)

Lemma append_empty (a b : string) : a +:+ b = "" → a = "" ∧ b = "".
Proof.
  destruct a as [|c a]; [intros Hb; split; [done|exact Hb]|].
  intros Heq. change (String c (a +:+ b) = "") in Heq. discriminate Heq.
Qed.

Lemma length_append (a b : string) :
  String.length (a +:+ b) = String.length a + String.length b.
Proof.
  induction a as [|c a IH]; [done|].
  change (S (String.length (a +:+ b)) = S (String.length a) + String.length b).
  by rewrite IH.
Qed.

Lemma str_join_cons sep x l :
  str_join sep (x :: l) = match l with [] => x | _ :: _ => x +:+ sep +:+ str_join sep l end.
Proof. done. Qed.

Lemma str_join_empty sep l : Forall (λ x, x ≠ "") l → str_join sep l = "" → l = [].
Proof.
  intros Hl. destruct Hl as [|x l Hx Hl]; [done|].
  rewrite str_join_cons. destruct l; [done|]. by intros [? _]%append_empty.
Qed.

Lemma str_join_length sep l :
  String.length (str_join sep l)
  = sum_list (String.length <$> l) + String.length sep * (length l - 1).
Proof.
  induction l as [|x l IH]; [simpl; lia|].
  rewrite str_join_cons. destruct l as [|y l]; [simpl; lia|].
  rewrite !length_append, IH. simpl. lia.
Qed.

(** X21. The text of a document is empty exactly when no paragraph has text, and
    paragraphs without text leave no trace in it. *)
Theorem docx_blank_paragraphs paragraphs :
  (extract_text_from_docx paragraphs = "" ↔ Forall (λ p, p = "") paragraphs) ∧
  (∀ before after,
     paragraphs = before ++ "" :: after →
     extract_text_from_docx paragraphs
     = extract_text_from_docx (before ++ after)).
Proof.
  unfold extract_text_from_docx. split.
  - split.
    + intros Hjoin. apply str_join_empty in Hjoin.
      * apply Forall_forall. intros p Hp. destruct (decide (p = "")); [done|].
        assert (p ∈ filter (λ p, p ≠ "") paragraphs) as Hin
          by by apply list_elem_of_filter.
        rewrite Hjoin in Hin. by apply elem_of_nil in Hin.
      * apply Forall_forall. by intros p [? _]%list_elem_of_filter.
    + intros Hall. assert (filter (λ p, p ≠ "") paragraphs = []) as ->; [|done].
      induction Hall as [|p l -> _ IH]; [done|].
      by rewrite filter_cons_False by (by intros ?).
  - intros before after ->.
    by rewrite !filter_app, filter_cons_False by (by intros ?).
Qed.

(** X22. Pages without text stay in the text of a PDF as empty parts: the text
    is as long as the texts of the pages and two line feeds between each two
    pages. *)
Theorem pdf_text_length pages :
  String.length (extract_text_from_pdf pages)
  = sum_list (String.length <$> (default "" <$> pages))
    + 2 * (length pages - 1).
Proof.
  unfold extract_text_from_pdf. by rewrite str_join_length, length_fmap.
Qed.

Lemma filter_head {A} (P : A → Prop) `{∀ x, Decision (P x)} (l : list A) x rest :
  filter P l = x :: rest →
  ∃ l1 l2, l = l1 ++ x :: l2 ∧ Forall (λ y, ¬ P y) l1 ∧ P x.
Proof.
  induction l as [|y l IH]; [done|].
  destruct (decide (P y)) as [Hy|Hy].
  - rewrite filter_cons_True by done. intros [= -> _].
    by exists [], l.
  - rewrite filter_cons_False by done.
    intros (l1 & l2 & -> & Hl1 & Hx)%IH. exists (y :: l1), l2.
    split_and!; [done| |done]. by apply Forall_cons.
Qed.

(** X23. The member of a Pages file that is opened is the first one, in the
    order of the archive, whose name starts with QuickLook/ and ends with
    .pdf; when the archive names it again it is its last copy that is
    opened. Without such a member, and only then, the extraction raises its
    [FileNotFoundError]. *)
Theorem pages_preview_member {A : Type} (z : list (string * A)) :
  (∀ member, open_preview z = Returned member →
     ∃ before name after,
       z.*1 = before ++ name :: after ∧
       Forall (λ f, ¬ (startswith "QuickLook/" f && endswith ".pdf" f))
              before ∧
       (∃ r, chars name = chars "QuickLook/" ++ r) ∧
       (∃ r, chars name = r ++ chars ".pdf") ∧
       last (filter (λ m, m.1 = name) z) = Some (name, member)) ∧
  (∀ e, open_preview z = Raised e ↔
        e = FileNotFoundError "No QuickLook/Preview.pdf in .pages" ∧
        Forall (λ f, ¬ (startswith "QuickLook/" f && endswith ".pdf" f)) z.*1).
Proof.
  unfold open_preview.
  destruct (filter (λ f, startswith "QuickLook/" f && endswith ".pdf" f) z.*1)
    as [|name rest] eqn:Hcands.
  - split; [done|]. intros e. split.
    + intros [= <-]. split; [done|].
      apply Forall_forall. intros f Hf Hp.
      assert (f ∈ filter (λ f, startswith "QuickLook/" f && endswith ".pdf" f)
                         z.*1) as Hin by by apply list_elem_of_filter.
      rewrite Hcands in Hin. by apply elem_of_nil in Hin.
    + by intros [-> _].
  - apply filter_head in Hcands as (before & after & Hz & Hbefore & Hname).
    assert (name ∈ z.*1) as Hin.
    { rewrite Hz. apply elem_of_app. right. left. }
    apply list_elem_of_fmap in Hin as ([name' member'] & Hname' & Hm).
    simpl in Hname'. subst name'.
    unfold zip_open.
    destruct (last (filter (λ m, m.1 = name) z)) as [[n member]|] eqn:Hlast.
    + pose proof Hlast as Hn.
      apply last_Some_elem_of, list_elem_of_filter in Hn as [Hn _].
      simpl in Hn. subst n. simpl. split.
      * intros m [= <-]. exists before, name, after.
        apply andb_True in Hname as [Hstart Hend].
        apply bool_decide_unpack in Hstart as [r Hr].
        apply bool_decide_unpack in Hend as [r' Hr'].
        apply drop_word_Some in Hr. apply drop_word_Some in Hr'.
        apply (f_equal reverse) in Hr'.
        rewrite reverse_involutive, reverse_app, reverse_involutive in Hr'.
        split_and!; [done|done| | |done].
        -- by exists r.
        -- by exists (reverse r').
      * intros e. split; [done|]. intros [_ Hall].
        rewrite Hz in Hall. apply Forall_app in Hall as [_ Hall].
        apply Forall_cons in Hall as [Hnot _]. done.
    + exfalso. apply last_None in Hlast.
      assert ((name, member') ∈ filter (λ m, m.1 = name) z) as Hin
        by by apply list_elem_of_filter.
      rewrite Hlast in Hin. by apply elem_of_nil in Hin.
Qed.

(** ** The theorems at concrete inputs *)

Ltac evaluate := apply (bool_decide_unpack _); vm_compute; exact I.

Lemma U1_scenario_B : U1 scenario_B.
Proof. unfold U1. evaluate. Qed.

Lemma upsert_postcondition_witness :
  U1 scenario_B ∧
  (∃ v, last (@upsert concat_order alice ["reading"] scenario_B)
        = Some (alice, v)) ∧
  U1 (@upsert concat_order alice ["reading"] scenario_B) ∧
  length (@upsert concat_order alice ["reading"] scenario_B)
    ≤ S (length scenario_B) ∧
  (alice ∉ scenario_B.*1 →
   length (@upsert concat_order alice ["reading"] scenario_B)
     = S (length scenario_B)) ∧
  (alice ∈ scenario_B.*1 →
   length (@upsert concat_order alice ["reading"] scenario_B)
     = length scenario_B).
Proof.
  split; [exact U1_scenario_B|].
  exact (@upsert_postcondition concat_order alice ["reading"] scenario_B
           U1_scenario_B).
Defined.

Lemma upsert_frame_witness :
  (bob ≠ alice →
   od_get bob (@upsert concat_order alice ["reading"] scenario_B)
     = od_get bob scenario_B) ∧
  filter (λ e, e.1 ≠ alice) (@upsert concat_order alice ["reading"] scenario_B)
    = [(bob, ["golf"])].
Proof.
  destruct (@upsert_frame concat_order alice ["reading"] scenario_B)
    as [Hget Hfilter].
  split; [exact (Hget bob) | exact Hfilter].
Defined.

Lemma scenario_B_upsert_witness :
  ∃ l, @upsert concat_order alice ["reading"] scenario_B
         = [(bob, ["golf"]); (alice, l)] ∧
       as_set l = {["chess"; "reading"]}.
Proof. exact (@scenario_B_upsert concat_order elem_of_concat_order). Defined.

Lemma union_accumulation_witness :
  (alice ∉ ([] : OrderedDict).*1) ∧ (alice ∉ [(bob, ["golf"])].*1) ∧
  ∃ l, od_get alice
         (@upsert concat_order alice ["reading"; "chess"]
            (@upserts concat_order [(bob, ["golf"])]
               (@upsert concat_order alice ["chess"] [])))
       = Some l ∧
       as_set l = as_set ["chess"] ∪ as_set ["reading"; "chess"].
Proof.
  assert (alice ∉ ([] : OrderedDict).*1) as Hod by evaluate.
  assert (alice ∉ [(bob, ["golf"])].*1) as Hothers by evaluate.
  split_and!; [exact Hod | exact Hothers |].
  destruct (@union_accumulation concat_order elem_of_concat_order alice
              ["chess"] ["reading"; "chess"] [(bob, ["golf"])] [] Hod Hothers)
    as (l & Hget & Hset & _).
  exists l. split; [exact Hget | exact Hset].
Defined.

Lemma recency_ordering_witness :
  U1 [] ∧
  last (@upserts concat_order [(alice, ["chess"]); (bob, ["golf"])] []).*1
    = Some bob ∧
  ∃ i j, od_index bob (@upserts concat_order scenario_run []) = Some i ∧
         od_index alice (@upserts concat_order scenario_run []) = Some j ∧
         i < j.
Proof.
  assert (U1 []) as HU by apply NoDup_nil_2.
  destruct (@recency_ordering concat_order scenario_run [] HU) as [Hlast Horder].
  split_and!; [exact HU | |].
  - exact (Hlast [(alice, ["chess"])] bob ["golf"] [(alice, ["reading"])]
             eq_refl).
  - apply (Horder [(alice, ["chess"])] bob ["golf"] [] alice ["reading"] []);
      [reflexivity | discriminate | evaluate | evaluate].
Defined.

Lemma save_load_save_witness :
  U1 scenario_B ∧
  @load_csv_into_ordereddict array_json
    (Some (@write_ordereddict_to_csv array_json scenario_B)) = Ok scenario_B ∧
  @main concat_order array_json
    (Some (@write_ordereddict_to_csv array_json scenario_B)) []
    = Ok (@write_ordereddict_to_csv array_json scenario_B).
Proof.
  destruct (@save_load_save array_json loads_dumps_list scenario_B
              U1_scenario_B) as (Hload & _ & Hmain).
  split_and!; [exact U1_scenario_B | exact Hload | exact (Hmain concat_order)].
Defined.

Lemma load_one_corrupt_row_witness :
  @load_csv_into_ordereddict array_json
    (Some ([alice_row] ++ corrupt_row :: [carol_row]))
  = Ok [(alice, ["chess"]); (bob, []); (("c.txt", "Carol"), ["go"])] ∧
  @load_csv_into_ordereddict array_json (Some ([alice_row] ++ [carol_row]))
  = Ok [(alice, ["chess"]); (("c.txt", "Carol"), ["go"])].
Proof.
  apply (proj2 (@load_one_corrupt_row array_json) [alice_row] corrupt_row
           [carol_row] bob "chess, golf");
    [evaluate | evaluate | reflexivity | reflexivity | reflexivity].
Defined.

Lemma load_duplicate_keys_witness :
  ∃ od, @load_csv_into_ordereddict array_json (Some duplicate_rows) = Ok od ∧
        U1 od ∧ od_get alice od = Some ["reading"].
Proof.
  destruct (@load_duplicate_keys array_json duplicate_rows)
    as (od & Hload & HU & Hget & _); [evaluate|].
  exists od. split_and!; [exact Hload | exact HU | exact (Hget alice)].
Defined.

(** The entry of a key that occurs twice stays where the key was first seen
    and takes the interests of its last row. *)
Example load_duplicate_rows :
  @load_csv_into_ordereddict array_json (Some duplicate_rows)
  = Ok [(alice, ["reading"]); (bob, ["golf"])].
Proof. reflexivity. Qed.

(** Scenario A: the first upsert on the empty ledger. *)
Example scenario_A :
  @upsert concat_order alice ["chess"] [] = [(alice, ["chess"])].
Proof. reflexivity. Qed.

(** Scenario C: an empty list of interests for a new key makes an entry. *)
Example scenario_C :
  @upsert concat_order bob [] [(alice, ["chess"])]
  = [(alice, ["chess"]); (bob, [])].
Proof. reflexivity. Qed.

(** A run of [main]: the CSV holds Alice and Bob, the one input file names
    Alice again, with spaces around the name. *)
Example main_run :
  @main concat_order array_json
    (Some (@write_ordereddict_to_csv array_json scenario_B))
    [Input "in/a.txt" true (Some [Person (Some " Alice ") (Some ["reading"])]);
     Input "in/b.odt" true (Some [Person (Some "Bob") (Some ["tennis"])]);
     Input "in/c.txt" false None]
  = Ok (@write_ordereddict_to_csv array_json
          [(bob, ["golf"]); (alice, ["chess"; "reading"])]).
Proof. reflexivity. Qed.

(** The codec on a string with a quote, a backslash and a line feed. *)
Example dumps_list_escapes :
  dumps_list ["a"; text [dquote; bslash; "010"%char]]
  = text (chars "[" ++ [dquote] ++ chars "a" ++ [dquote] ++ chars ", "
          ++ [dquote; bslash; dquote; bslash; bslash; bslash] ++ chars "n"
          ++ [dquote] ++ chars "]").
Proof. reflexivity. Qed.

(** ** The further theorems at concrete inputs *)

Lemma run_accumulates_witness :
  as_set (default [] (od_get alice (@upserts concat_order scenario_run [])))
  = as_set (default [] (od_get alice [])) ∪ supplied alice scenario_run.
Proof.
  exact (@run_accumulates concat_order elem_of_concat_order alice
           scenario_run []).
Defined.

Lemma upsert_twice_witness :
  (@upsert concat_order alice ["chess"; "chess"]
     (@upsert concat_order alice ["chess"; "chess"] scenario_B)).*1
  = (@upsert concat_order alice ["chess"; "chess"] scenario_B).*1.
Proof.
  exact (proj1 (@upsert_twice concat_order elem_of_concat_order alice
                  ["chess"; "chess"] scenario_B)).
Defined.

Lemma run_twice_witness :
  (@upserts concat_order scenario_run
     (@upserts concat_order scenario_run scenario_B)).*1
  = (@upserts concat_order scenario_run scenario_B).*1.
Proof.
  exact (proj1 (@run_twice concat_order elem_of_concat_order scenario_run
                  scenario_B)).
Defined.


Lemma main_loop_monotone_witness :
  alice ∈ scenario_B.*1 ∧
  alice ∈ (foldl (@process_file concat_order) scenario_B sample_files).*1 ∧
  as_set (default [] (od_get alice scenario_B))
    ⊆ as_set (default [] (od_get alice
                (foldl (@process_file concat_order) scenario_B sample_files))).
Proof.
  assert (alice ∈ scenario_B.*1) as Hin by evaluate.
  split; [exact Hin|].
  exact (@main_loop_monotone concat_order elem_of_concat_order sample_files
           scenario_B alice Hin).
Defined.

Lemma main_loop_new_key_witness :
  ∃ f p people,
    f ∈ sample_files ∧ input_is_file f = true ∧
    extension (input_path f) ∈ EXTS ∧
    input_people f = Some people ∧ p ∈ people ∧
    alice = (basename (input_path f), strip (default "" (person_name p))) ∧
    ("/"%char ∉ chars alice.1) ∧
    drop_one spaces (chars alice.2) = None ∧
    drop_one (map reverse spaces) (reverse (chars alice.2)) = None.
Proof.
  apply (@main_loop_new_key concat_order sample_files [] alice); evaluate.
Defined.

Lemma main_unique_keys_witness :
  Forall (λ r : csv_row, is_Some (row_key r))
    (@write_ordereddict_to_csv array_json
       [(bob, ["golf"]); (alice, ["chess"; "reading"])]) ∧
  NoDup (omap row_key
           (@write_ordereddict_to_csv array_json
              [(bob, ["golf"]); (alice, ["chess"; "reading"])])).
Proof.
  apply (@main_unique_keys array_json concat_order
           (Some (@write_ordereddict_to_csv array_json scenario_B))
           sample_files).
  reflexivity.
Defined.

Lemma load_error_witness :
  @load_csv_into_ordereddict array_json (Some [alice_row; nameless_row; carol_row])
  = Raise (KeyError "name").
Proof.
  apply (proj2 (@load_error array_json [alice_row; nameless_row; carol_row])
           [alice_row] nameless_row [carol_row]);
    [reflexivity | evaluate | reflexivity].
Defined.

Lemma load_key_order_witness :
  [(alice, ["reading"]); (bob, ["golf"])].*1
  = first_occurrences (omap row_key duplicate_rows).
Proof.
  apply (@load_key_order array_json duplicate_rows
           [(alice, ["reading"]); (bob, ["golf"])]).
  reflexivity.
Defined.

Lemma load_interests_witness :
  ["reading"] = [] ∨
  ∃ row s, row ∈ duplicate_rows ∧ row_key row = Some alice ∧
           row !! "interests" = Some s ∧
           @json_loads array_json s = Some ["reading"].
Proof.
  apply (@load_interests array_json duplicate_rows
           [(alice, ["reading"]); (bob, ["golf"])] alice ["reading"]);
    reflexivity.
Defined.

Lemma basename_directory_witness :
  basename (text (chars "notes" ++ "/"%char :: chars "a.txt")) = "a.txt" ∧
  basename "a.txt" = "a.txt" ∧
  basename (text (chars "notes" ++ "/"%char :: chars "a.txt"))
    = basename (text (chars "in" ++ "/"%char :: chars "a.txt")).
Proof.
  apply (basename_directory (chars "notes") (chars "in") (chars "a.txt")).
  evaluate.
Defined.

Lemma read_answer_recovers_witness :
  @read_answer names_json wrapped_answer = Returned [Person (Some "Alice") None].
Proof.
  apply (@read_answer_recovers names_json wrapped_answer (chars "Sure: ")
           (dquote :: chars "Alice" ++ [dquote]) (chars " Bye."));
    [reflexivity | evaluate | evaluate | reflexivity | reflexivity].
Defined.

Lemma read_answer_raises_witness :
  @json_loads_people names_json (strip "no array") = None ∧
  ((ValueError ("Could not parse JSON:" +:+ line_feed +:+ "no array")
    = ValueError ("Could not parse JSON:" +:+ line_feed +:+ strip "no array") ∧
    bracket_span (chars (strip "no array")) = None) ∨
   (ValueError ("Could not parse JSON:" +:+ line_feed +:+ "no array")
    = JSONDecodeError ∧
    ∃ m, bracket_span (chars (strip "no array")) = Some m ∧
         @json_loads_people names_json (text m) = None)).
Proof.
  apply (@read_answer_raises names_json "no array"). reflexivity.
Defined.


(** C6 as the specification words it fails on a file that names Alice, Bob
    and Alice again: keeping the last occurrence would leave Bob before
    Alice, and loading leaves Alice, with her last interests, before Bob. *)
Lemma load_keeps_last_occurrence_counterexample :
  @load_csv_into_ordereddict array_json (Some duplicate_rows)
    = Ok [(alice, ["reading"]); (bob, ["golf"])] ∧
  spec_keep_last_occurrence (@entries array_json duplicate_rows)
    = [(bob, ["golf"]); (alice, ["reading"])] ∧
  @load_csv_into_ordereddict array_json (Some duplicate_rows)
    ≠ Ok (spec_keep_last_occurrence (@entries array_json duplicate_rows)).
Proof.
  split_and!; [reflexivity | reflexivity |].
  intros Heq. vm_compute in Heq. discriminate Heq.
Qed.

Lemma load_duplicates_first_position_witness :
  ∃ od, @load_csv_into_ordereddict array_json (Some duplicate_rows) = Ok od ∧
        U1 od ∧
        od.*1 = first_occurrences (omap row_key duplicate_rows) ∧
        od_get alice od = Some ["reading"].
Proof.
  destruct (@load_duplicates_first_position array_json duplicate_rows)
    as (od & Hload & HU & Hkeys & Hget & _); [evaluate|].
  exists od. split_and!; [exact Hload | exact HU | exact Hkeys |].
  exact (Hget alice).
Defined.
